(** * Lookout UI: job preemption batching and aggregation

    A shallow embedding of
    [internal/lookoutui/src/services/lookout/usePreemptJobs.ts]:
    the batching function [createJobBatches] and the mutation function of
    the [usePreemptJobs] hook, with the properties its specification
    states about them. *)

From Stdlib Require Import String ZArith Bool Arith Lia List Permutation.
Import ListNotations.
Local Open Scope string_scope.
Local Open Scope list_scope.

Set Implicit Arguments.

(** ** Data model *)

(** [JobId] is a string in [lookoutModels]. *)
Definition JobId := string.

(** The fields of [Job] that the hook reads. *)
Record Job := mkJob {
  jobId : JobId;
  queue : string;
  jobSet : string
}.

(** ** JavaScript [Map] with string keys

    A [Map] iterates in insertion order and [set] on a present key keeps
    the key's position, so it is an association list in which the first
    binding of a key is the binding. *)
Module JsMap.

Definition t (V : Type) := list (string * V).

Definition empty {V : Type} : t V := [].

Fixpoint get {V : Type} (m : t V) (k : string) : option V :=
  match m with
  | [] => None
  | (k', v) :: m' => if String.eqb k' k then Some v else get m' k
  end.

Definition has {V : Type} (m : t V) (k : string) : bool :=
  existsb (fun kv => String.eqb (fst kv) k) m.

Fixpoint set {V : Type} (m : t V) (k : string) (v : V) : t V :=
  match m with
  | [] => [(k, v)]
  | (k', v') :: m' =>
      if String.eqb k' k then (k', v) :: m' else (k', v') :: set m' k v
  end.

Definition keys {V : Type} (m : t V) : list string := map fst m.

End JsMap.

(** ** [createJobBatches] *)

Definition Batches := list (list JobId).
Definition JobSetMap := JsMap.t Batches.
Definition QueueMap := JsMap.t JobSetMap.

(** [result.get(queue)?.get(jobSet)] *)
Definition getBatches (result : QueueMap) (q js : string) : option Batches :=
  match JsMap.get result q with
  | Some jobSetMap => JsMap.get jobSetMap js
  | None => None
  end.

(** The effect on [result] of mutating, in place, the array stored under
    [q] and [js] into [batches].  The inner map and the array are reached
    through references, each held by one key only, so the mutation is an
    update at that key. *)
Definition putBatches (result : QueueMap) (q js : string) (batches : Batches)
  : QueueMap :=
  match JsMap.get result q with
  | Some jobSetMap => JsMap.set result q (JsMap.set jobSetMap js batches)
  | None => result
  end.

(** One iteration of the loop over [jobs]. A [batchSize] is a JavaScript
    number; the only use made of it is the comparison with a length, so
    the integers stand for the whole numbers, and for a number that is
    not whole, which like a negative integer is never a length (with 2.5
    the loop does what it does with -1: no batch is ever full). *)
Definition addJob (batchSize : Z) (result : QueueMap) (job : Job) : QueueMap :=
  let result1 :=
    if negb (JsMap.has result (queue job))
    then JsMap.set result (queue job) JsMap.empty
    else result in
  let result2 :=
    match JsMap.get result1 (queue job) with
    | Some jobSetMap =>
        if negb (JsMap.has jobSetMap (jobSet job))
        then JsMap.set result1 (queue job) (JsMap.set jobSetMap (jobSet job) [])
        else result1
    | None => result1
    end in
  match getBatches result2 (queue job) (jobSet job) with
  | None => result2
  | Some batches =>
      if (length batches =? 0)%nat
         || (Z.of_nat (length (last batches [])) =? batchSize)%Z
      then putBatches result2 (queue job) (jobSet job)
             (batches ++ [[jobId job]])
      else putBatches result2 (queue job) (jobSet job)
             (removelast batches ++ [last batches [] ++ [jobId job]])
  end.

Definition createJobBatches (jobs : list Job) (batchSize : Z) : QueueMap :=
  fold_left (addJob batchSize) jobs JsMap.empty.

(** Every batch of the structure, in iteration order. *)
Definition allBatches (chunks : QueueMap) : list (list JobId) :=
  flat_map (fun qm => flat_map snd (snd qm)) chunks.

(** Every job ID of the structure, in iteration order. *)
Definition allJobIds (chunks : QueueMap) : list JobId :=
  concat (allBatches chunks).

(** ** Requests, responses and configuration *)

(** The body of one call of [submitApi.preemptJobs]. *)
Record PreemptJobsBody := mkBody {
  body_jobIds : list JobId;
  body_queue : string;
  body_jobSetId : string;
  body_reason : string
}.

(** An element of [failedJobIds]. *)
Record FailedJob := mkFailed {
  failed_jobId : JobId;
  errorReason : string
}.

Record UpdateJobsResponse := mkResponse {
  successfulJobIds : list JobId;
  failedJobIds : list FailedJob
}.

(** The part of [getConfig()] that the hook reads. *)
Record Config := mkConfig {
  fakeDataEnabled : bool
}.

(** ** Effects

    The mutation calls the API and can throw.  A computation takes the
    calls of [submitApi.preemptJobs] made so far, in order, and gives a
    completion, normal or abrupt, with the calls made by its end. *)

Inductive Completion (E A : Type) : Type :=
| Normal (a : A)
| Throw (e : E).
Arguments Normal {E A} a.
Arguments Throw {E A} e.

Definition Calls := list PreemptJobsBody.

Definition Eff (E A : Type) : Type := Calls -> Completion E A * Calls.

Definition ret {E A : Type} (a : A) : Eff E A :=
  fun calls => (Normal a, calls).

Definition throw {E A : Type} (e : E) : Eff E A :=
  fun calls => (Throw e, calls).

Definition bind {E A B : Type} (m : Eff E A) (k : A -> Eff E B) : Eff E B :=
  fun calls =>
    match m calls with
    | (Normal a, calls') => k a calls'
    | (Throw e, calls') => (Throw e, calls')
    end.

(** [try { m } catch (e) { handler e }] *)
Definition tryCatch {E E' A : Type} (m : Eff E A) (handler : E -> Eff E' A)
  : Eff E' A :=
  fun calls =>
    match m calls with
    | (Normal a, calls') => (Normal a, calls')
    | (Throw e, calls') => handler e calls'
    end.

Notation "x <- m ;; k" := (bind m (fun x => k))
  (at level 61, m at next level, right associativity).

(** [for (const x of xs) { s = body x s }], with the variables that the
    body updates passed along as [s]. *)
Fixpoint forOf {E A S : Type} (xs : list A) (body : A -> S -> Eff E S) (s : S)
  : Eff E S :=
  match xs with
  | [] => ret s
  | x :: xs' => s' <- body x s ;; forOf xs' body s'
  end.

(** ** The mutation function of [usePreemptJobs] *)

Section Mutation.

(** What can be thrown, or be the reason of a rejected promise. *)
Variable Err : Type.

(** [getErrorMessage] of [common/utils], which is imported: it gives the
    message string of what was caught. *)
Variable getErrorMessage : Err -> string.

Variable config : Config.

(** A promise as [await] finds it.  A promise that never settles is left
    out: with one the mutation does not complete. *)
Inductive Promise : Type :=
| Fulfilled
| Rejected (e : Err).

(** What a call of [submitApi.preemptJobs] does: it throws, or returns a
    promise. *)
Inductive CallOutcome : Type :=
| Throws (e : Err)
| Returns (p : Promise).

(** The API client of [useApiClients()]: the outcome of the call that
    comes after [n] earlier ones, by its body. *)
Variable submitApi : nat -> PreemptJobsBody -> CallOutcome.

Definition preemptJobs (body : PreemptJobsBody) : Eff Err Promise :=
  fun calls =>
    match submitApi (length calls) body with
    | Throws e => (Throw e, calls ++ [body])
    | Returns p => (Normal p, calls ++ [body])
    end.

Definition await (p : Promise) : Eff Err unit :=
  match p with
  | Fulfilled => ret tt
  | Rejected e => throw e
  end.

(** An element of [apiResponsePromises]. *)
Record ApiResponsePromise := mkApiResponsePromise {
  promise : Promise;
  jobIds : list JobId
}.

Definition maxJobsPerRequest : Z := 10000.

(** The three nested loops that call the API. *)
Definition issueRequests (chunks : QueueMap) (reason : string)
  : Eff Err (list ApiResponsePromise) :=
  forOf chunks (fun '(queue, jobSetMap) =>
    forOf jobSetMap (fun '(jobSet, batches) =>
      forOf batches (fun batch apiResponsePromises =>
        p <- preemptJobs (mkBody batch queue jobSet reason) ;;
        ret (apiResponsePromises ++ [mkApiResponsePromise p batch]))))
    [].

(** The loop that awaits the promises, with its inner [try]/[catch]. *)
Definition collectResponses (apiResponsePromises : list ApiResponsePromise)
  (response : UpdateJobsResponse) : Eff Err UpdateJobsResponse :=
  forOf apiResponsePromises (fun apiResponsePromise response =>
    tryCatch
      (_ <- await (promise apiResponsePromise) ;;
       ret (mkResponse
              (successfulJobIds response ++ jobIds apiResponsePromise)
              (failedJobIds response)))
      (fun e =>
         let text := getErrorMessage e in
         let failedIds :=
           map (fun jobId => mkFailed jobId text)
               (jobIds apiResponsePromise) in
         ret (mkResponse
                (successfulJobIds response)
                (failedJobIds response ++ failedIds))))
    response.

(** The body of the outer [try]. *)
Definition tryBlock (jobs : list Job) (reason : string)
  : Eff Err UpdateJobsResponse :=
  let response := mkResponse [] [] in
  let chunks := createJobBatches jobs maxJobsPerRequest in
  apiResponsePromises <- issueRequests chunks reason ;;
  collectResponses apiResponsePromises response.

(** [mutationFn]. What it throws is a string.  In fake-data mode the
    source first waits a second, which changes no value. *)
Definition mutationFn (jobs : list Job) (reason : string)
  : Eff string UpdateJobsResponse :=
  if fakeDataEnabled config then
    ret (mkResponse (map jobId jobs) [])
  else
    tryCatch (tryBlock jobs reason)
             (fun e => throw (getErrorMessage e)).

End Mutation.

Arguments Fulfilled {Err}.
Arguments Throws {Err} e.

(** ** Notions used to state the properties *)

(** The elements of a list in the order of their first occurrence. *)
Fixpoint firstSeen (l : list string) : list string :=
  match l with
  | [] => []
  | x :: l' => x :: filter (fun y => negb (String.eqb y x)) (firstSeen l')
  end.

Definition inQueue (q : string) (job : Job) : bool :=
  String.eqb (queue job) q.

Definition inGroup (q js : string) (job : Job) : bool :=
  String.eqb (queue job) q && String.eqb (jobSet job) js.

(** What pushing one job ID does to the array of batches of its group. *)
Definition pushJobId (batchSize : Z) (batches : Batches) (id : JobId)
  : Batches :=
  if (length batches =? 0)%nat
     || (Z.of_nat (length (last batches [])) =? batchSize)%Z
  then batches ++ [[id]]
  else removelast batches ++ [last batches [] ++ [id]].

Definition jobSetMapOf (result : QueueMap) (q : string) : JobSetMap :=
  match JsMap.get result q with Some m => m | None => [] end.

Definition batchesOf (result : QueueMap) (q js : string) : Batches :=
  match getBatches result q js with Some bs => bs | None => [] end.

(** A batch within a batch size. *)
Definition withinSize (batchSize : Z) (b : list JobId) : Prop :=
  (Z.of_nat (length b) <= batchSize)%Z.

(** What the values of a map hold, in iteration order, when [f] gives what
    one value holds. *)
Definition content {V X : Type} (f : V -> list X) (m : JsMap.t V) : list X :=
  flat_map (fun kv => f (snd kv)) m.

(** The job IDs held by the batches of one queue. *)
Definition jobIdsOfJobSetMap (m : JobSetMap) : list JobId :=
  concat (flat_map snd m).

(** One request per batch, in iteration order, each with the batch's job
    IDs, the keys the batch is stored under, and the reason. *)
Definition requestsOf (chunks : QueueMap) (reason : string)
  : list PreemptJobsBody :=
  flat_map (fun qm =>
    flat_map (fun jb =>
      map (fun batch => mkBody batch (fst qm) (fst jb) reason) (snd jb))
      (snd qm))
    chunks.

(** A job ID is in exactly one of the two lists of a response. *)
Definition inExactlyOneList (id : JobId) (r : UpdateJobsResponse) : Prop :=
  (In id (successfulJobIds r) /\ ~ In id (map failed_jobId (failedJobIds r)))
  \/ (~ In id (successfulJobIds r) /\ In id (map failed_jobId (failedJobIds r))).

Section Outcomes.

Variable Err : Type.
Variable getErrorMessage : Err -> string.
Variable submitApi : nat -> PreemptJobsBody -> CallOutcome Err.

(** No call of the API for these requests, made in this order, throws. *)
Definition noCallThrows (requests : list PreemptJobsBody) : Prop :=
  forall i body, nth_error requests i = Some body ->
                 exists p, submitApi i body = Returns p.

(** The request made as call [i] fails with [e]: its promise rejects. *)
Definition requestFails (i : nat) (body : PreemptJobsBody) (e : Err) : Prop :=
  submitApi i body = Returns (Rejected e).

Definition requestSucceeds (i : nat) (body : PreemptJobsBody) : Prop :=
  submitApi i body = Returns Fulfilled.

(** The body of the innermost loop of [issueRequests], by request. *)
Definition issueOne (body : PreemptJobsBody)
  (apiResponsePromises : list (ApiResponsePromise Err))
  : Eff Err (list (ApiResponsePromise Err)) :=
  p <- preemptJobs submitApi body ;;
  ret (apiResponsePromises ++ [mkApiResponsePromise p (body_jobIds body)]).

Definition promiseOf (o : CallOutcome Err) : Promise Err :=
  match o with
  | Returns p => p
  | Throws e => Rejected e
  end.

(** The elements pushed to [apiResponsePromises] for requests that are
    made from call [n] on and of which none throws. *)
Fixpoint promisesFrom (n : nat) (requests : list PreemptJobsBody)
  : list (ApiResponsePromise Err) :=
  match requests with
  | [] => []
  | body :: requests' =>
      mkApiResponsePromise (promiseOf (submitApi n body)) (body_jobIds body)
      :: promisesFrom (S n) requests'
  end.

Definition successesOf (a : ApiResponsePromise Err) : list JobId :=
  match promise a with
  | Fulfilled => jobIds a
  | Rejected _ => []
  end.

Definition failuresOf (a : ApiResponsePromise Err) : list FailedJob :=
  match promise a with
  | Fulfilled => []
  | Rejected e => map (fun id => mkFailed id (getErrorMessage e)) (jobIds a)
  end.

End Outcomes.

(** ** Example jobs and API clients *)

Definition exampleJobs : list Job :=
  [mkJob "a" "q1" "s1"; mkJob "b" "q2" "s1"; mkJob "c" "q1" "s2";
   mkJob "d" "q1" "s1"; mkJob "e" "q1" "s1"].

Definition exampleMessage (e : string) : string := "Error: " ++ e.

(** Every request succeeds. *)
Definition allSucceed (i : nat) (body : PreemptJobsBody) : CallOutcome string :=
  Returns Fulfilled.

(** The requests for queue [q] fail with [e], the others succeed. *)
Definition rejectQueue (q e : string) (i : nat) (body : PreemptJobsBody)
  : CallOutcome string :=
  if String.eqb (body_queue body) q then Returns (Rejected e)
  else Returns Fulfilled.

(** The first [n] requests succeed, the later ones fail with [e]. *)
Definition rejectFromCall (n : nat) (e : string) (i : nat)
  (body : PreemptJobsBody) : CallOutcome string :=
  if (i <? n)%nat then Returns Fulfilled else Returns (Rejected e).

(** Call [n] throws [e], the other requests succeed. *)
Definition throwAtCall (n : nat) (e : string) (i : nat)
  (body : PreemptJobsBody) : CallOutcome string :=
  if (i =? n)%nat then Throws e else Returns Fulfilled.

(** The first request fails with [e], the second call throws [e'], the
    other requests succeed. *)
Definition rejectThenThrow (e e' : string) (i : nat) (body : PreemptJobsBody)
  : CallOutcome string :=
  match i with
  | 0 => Returns (Rejected e)
  | 1 => Throws e'
  | _ => Returns Fulfilled
  end.

(** ** The structure of [createJobBatches], stated group by group *)

(** The job IDs of the jobs of one queue and job-set, in input order. *)
Definition groupJobIds (jobs : list Job) (q js : string) : list JobId :=
  map jobId (filter (inGroup q js) jobs).

(** The job-sets of the jobs of one queue, in the order of first
    occurrence. *)
Definition jobSetsOf (jobs : list Job) (q : string) : list string :=
  firstSeen (map jobSet (filter (inQueue q) jobs)).

(** Queue by queue and job-set by job-set, each in the order of first
    occurrence, the batches made by pushing the job IDs of the group one
    after the other. *)
Definition groupedBatches (jobs : list Job) (batchSize : Z) : QueueMap :=
  map (fun q =>
         (q, map (fun js =>
                    (js, fold_left (pushJobId batchSize)
                                   (groupJobIds jobs q js) []))
                 (jobSetsOf jobs q)))
      (firstSeen (map queue jobs)).

(** The job IDs of the input, group after group. *)
Definition groupedJobIds (jobs : list Job) : list JobId :=
  flat_map (fun q => flat_map (groupJobIds jobs q) (jobSetsOf jobs q))
           (firstSeen (map queue jobs)).

(** A batch that holds exactly [batchSize] job IDs. *)
Definition fullBatch (batchSize : Z) (b : list JobId) : Prop :=
  Z.of_nat (length b) = batchSize.

(** ** The response, request by request *)

(** The elements of a list with their positions. *)
Definition indexed {A : Type} (l : list A) : list (nat * A) :=
  combine (seq 0 (length l)) l.

Section Reports.

Variable Err : Type.
Variable getErrorMessage : Err -> string.
Variable submitApi : nat -> PreemptJobsBody -> CallOutcome Err.

(** What the request made as call [i] adds to [successfulJobIds]. *)
Definition successReport (ib : nat * PreemptJobsBody) : list JobId :=
  match submitApi (fst ib) (snd ib) with
  | Returns Fulfilled => body_jobIds (snd ib)
  | _ => []
  end.

(** What the request made as call [i] adds to [failedJobIds]. *)
Definition failureReport (ib : nat * PreemptJobsBody) : list FailedJob :=
  match submitApi (fst ib) (snd ib) with
  | Returns (Rejected e) =>
      map (fun id => mkFailed id (getErrorMessage e)) (body_jobIds (snd ib))
  | _ => []
  end.

End Reports.

(** ** The dialog that uses the hook: [PreemptionDialog] *)

Module PreemptionDialog.

(** The severity given to [openSnackbar]. *)
Inductive Severity : Type :=
| success
| error
| warning.

(** [jobIdsToPreemptResponses] is a [Record<JobId, string>], an object.
    The dialog copies it, assigns to its properties and counts its keys;
    the map holds its own properties, which [JsMap.get] looks up. *)
Definition Statuses := JsMap.t string.

(** [object[name] = value] for a string [value].  The assignment makes or
    updates an own property, but for the name [__proto__]: that one goes
    to the setter of [Object.prototype], which does nothing with a
    string, so the object is left as it is. *)
Definition assignProperty (object : Statuses) (name value : string)
  : Statuses :=
  if String.eqb name "__proto__" then object
  else JsMap.set object name value.

(** The state that the handlers read and set, with what they have asked
    for from outside: the snackbars opened, in order, and the number of
    calls of [refetch]. *)
Record State := mkState {
  jobIdsToPreemptResponses : Statuses;
  reason : string;
  isPreempting : bool;
  hasAttemptedPreempt : bool;
  refetchAfterPreempt : bool;
  snackbars : list (string * Severity);
  refetches : nat
}.

Definition initialState : State :=
  mkState JsMap.empty "" false false false [] 0.

Definition setJobIdsToPreemptResponses (v : Statuses) (s : State) : State :=
  mkState v (reason s) (isPreempting s) (hasAttemptedPreempt s)
          (refetchAfterPreempt s) (snackbars s) (refetches s).

Definition setReason (v : string) (s : State) : State :=
  mkState (jobIdsToPreemptResponses s) v (isPreempting s)
          (hasAttemptedPreempt s) (refetchAfterPreempt s) (snackbars s)
          (refetches s).

Definition setIsPreempting (v : bool) (s : State) : State :=
  mkState (jobIdsToPreemptResponses s) (reason s) v (hasAttemptedPreempt s)
          (refetchAfterPreempt s) (snackbars s) (refetches s).

Definition setHasAttemptedPreempt (v : bool) (s : State) : State :=
  mkState (jobIdsToPreemptResponses s) (reason s) (isPreempting s) v
          (refetchAfterPreempt s) (snackbars s) (refetches s).

Definition setRefetchAfterPreempt (v : bool) (s : State) : State :=
  mkState (jobIdsToPreemptResponses s) (reason s) (isPreempting s)
          (hasAttemptedPreempt s) v (snackbars s) (refetches s).

Definition openSnackbar (message : string) (severity : Severity) (s : State)
  : State :=
  mkState (jobIdsToPreemptResponses s) (reason s) (isPreempting s)
          (hasAttemptedPreempt s) (refetchAfterPreempt s)
          (snackbars s ++ [(message, severity)]) (refetches s).

Definition refetch (s : State) : State :=
  mkState (jobIdsToPreemptResponses s) (reason s) (isPreempting s)
          (hasAttemptedPreempt s) (refetchAfterPreempt s) (snackbars s)
          (S (refetches s)).

Definition successMessage : string :=
  "Successfully began preemption. Jobs may take some time to preempt, but you may navigate away.".

Definition allFailedMessage : string :=
  "All jobs failed to preempt. See table for error responses.".

Definition someFailedMessage : string :=
  "Some jobs failed to preempt. See table for error responses.".

(** The snackbar that [preemptJobs] opens for a response. *)
Definition snackbarFor (response : UpdateJobsResponse) : string * Severity :=
  if (length (failedJobIds response) =? 0)%nat then
    (successMessage, success)
  else if (length (successfulJobIds response) =? 0)%nat then
    (allFailedMessage, error)
  else
    (someFailedMessage, warning).

(** [newResponseStatus] after the two loops of [preemptJobs] over the
    response: first the successful job IDs, then the failed ones. *)
Definition recordResponses (statuses : Statuses) (response : UpdateJobsResponse)
  : Statuses :=
  let newResponseStatus :=
    fold_left (fun st jobId => assignProperty st jobId "Success")
              (successfulJobIds response) statuses in
  fold_left (fun st failed =>
               assignProperty st (failed_jobId failed) (errorReason failed))
            (failedJobIds response) newResponseStatus.

Section Handlers.

(** [isTerminatedJobState(job.state)], which is imported. *)
Variable terminated : Job -> bool.

(** [preemptJobsMutation.mutateAsync] by its variables: the response it
    resolves to, or what it rejects with. *)
Variable mutateAsync : list Job -> string -> Completion string UpdateJobsResponse.

Definition preemptableJobs (selectedJobs : list Job) : list Job :=
  filter (fun job => negb (terminated job)) selectedJobs.

(** The callback [preemptJobs], with its [try] and [finally].  The values
    of [reason] and [jobIdsToPreemptResponses] are those of the state the
    callback was made for. *)
Definition preemptJobs (preemptable : list Job) (s : State)
  : Completion string unit * State :=
  let s1 := setIsPreempting true s in
  match mutateAsync preemptable (reason s) with
  | Normal response =>
      let s2 := openSnackbar (fst (snackbarFor response))
                             (snd (snackbarFor response)) s1 in
      let newResponseStatus :=
        recordResponses (jobIdsToPreemptResponses s) response in
      let s3 := setJobIdsToPreemptResponses newResponseStatus s2 in
      let s4 := setHasAttemptedPreempt true s3 in
      (Normal tt, setIsPreempting false s4)
  | Throw e => (Throw e, setIsPreempting false s1)
  end.

(** [handlePreemptJobs]: the refetch is asked for only when [preemptJobs]
    completes normally. *)
Definition handlePreemptJobs (preemptable : list Job) (s : State)
  : Completion string unit * State :=
  match preemptJobs preemptable s with
  | (Normal _, s') => (Normal tt, setRefetchAfterPreempt true s')
  | (Throw e, s') => (Throw e, s')
  end.

Definition handleReasonChange (value : string) (s : State) : State :=
  setHasAttemptedPreempt false (setReason value s).

Definition handleRefetch (s : State) : State :=
  refetch (setHasAttemptedPreempt false
             (setJobIdsToPreemptResponses JsMap.empty s)).

(** The effect on [refetchAfterPreempt]; its wait of half a second
    changes no value. *)
Definition refetchEffect (s : State) : State :=
  if refetchAfterPreempt s
  then setRefetchAfterPreempt false (refetch s)
  else s.



Definition showsTable (selectedJobs : list Job) : bool :=
  (0 <? length (preemptableJobs selectedJobs))%nat.

Definition showStatus (s : State) : bool :=
  (0 <? length (JsMap.keys (jobIdsToPreemptResponses s)))%nat.

(** The [disabled] of the two buttons. *)
Definition preemptDisabled (isLoadingJobs : bool) (selectedJobs : list Job)
  (s : State) : bool :=
  isLoadingJobs || hasAttemptedPreempt s
  || (length (preemptableJobs selectedJobs) =? 0)%nat.

Definition refetchDisabled (isLoadingJobs : bool) (s : State) : bool :=
  isLoadingJobs || isPreempting s.

End Handlers.

(** The last entry of [failedJobIds] for a job ID. *)
Definition lastFailure (id : JobId) (failed : list FailedJob)
  : option FailedJob :=
  find (fun f => String.eqb (failed_jobId f) id) (rev failed).

(** [mutateAsync] of the mutation of [usePreemptJobs]: it runs
    [mutationFn] once, with no call made before, and settles as it does;
    the hook sets no retry. *)
Definition mutateAsyncOf {Err : Type} (getErrorMessage : Err -> string)
  (config : Config) (submitApi : nat -> PreemptJobsBody -> CallOutcome Err)
  (jobs : list Job) (reason : string)
  : Completion string UpdateJobsResponse :=
  fst (mutationFn getErrorMessage config submitApi jobs reason []).

End PreemptionDialog.

(** * Facts about [JsMap] *)

Module JsMapFacts.
Import JsMap.

Section Facts.
Variable V : Type.
Implicit Types (m : t V) (k : string) (v : V).

Lemma has_get m k :
  has m k = match get m k with Some _ => true | None => false end.
Proof.
  induction m as [|[k' v'] m IH]; simpl; [reflexivity|].
  destruct (String.eqb k' k); simpl; auto.
Qed.

Lemma get_set_same m k v : get (set m k v) k = Some v.
Proof.
  induction m as [|[k' v'] m IH]; simpl.
  - now rewrite String.eqb_refl.
  - destruct (String.eqb k' k) eqn:E; simpl; rewrite E; auto.
Qed.

Lemma get_set_other m k k' v :
  k <> k' -> get (set m k v) k' = get m k'.
Proof.
  intros Hne. induction m as [|[k0 v0] m IH]; simpl.
  - destruct (String.eqb_spec k k'); congruence.
  - destruct (String.eqb_spec k0 k); simpl.
    + subst k0. destruct (String.eqb_spec k k'); congruence.
    + now rewrite IH.
Qed.

Lemma set_set m k v v' : set (set m k v) k v' = set m k v'.
Proof.
  induction m as [|[k0 v0] m IH]; simpl.
  - now rewrite String.eqb_refl.
  - destruct (String.eqb k0 k) eqn:E; simpl; rewrite E; congruence.
Qed.

Lemma set_get_id m k v : get m k = Some v -> set m k v = m.
Proof.
  induction m as [|[k0 v0] m IH]; simpl; [discriminate|].
  destruct (String.eqb k0 k); intros H.
  - congruence.
  - now rewrite IH.
Qed.

Lemma set_absent m k v : get m k = None -> set m k v = m ++ [(k, v)].
Proof.
  induction m as [|[k0 v0] m IH]; simpl; [reflexivity|].
  destruct (String.eqb k0 k); [discriminate|].
  intros H. now rewrite IH.
Qed.

Lemma set_present m k v :
  get m k = Some v ->
  exists l1 l2, m = l1 ++ (k, v) :: l2 /\
                forall v', set m k v' = l1 ++ (k, v') :: l2.
Proof.
  induction m as [|[k0 v0] m IH]; simpl; [discriminate|].
  destruct (String.eqb_spec k0 k); intros H.
  - injection H as ->. subst k0. exists [], m. split; reflexivity.
  - destruct (IH H) as (l1 & l2 & E1 & E2).
    exists ((k0, v0) :: l1), l2. split.
    + simpl. now rewrite E1.
    + intros v'. simpl. now rewrite E2.
Qed.

Lemma keys_set m k v :
  keys (set m k v) = if has m k then keys m else keys m ++ [k].
Proof.
  unfold keys, has. induction m as [|[k0 v0] m IH]; simpl; [reflexivity|].
  destruct (String.eqb k0 k); simpl; [reflexivity|].
  rewrite IH. now destruct (existsb _ m).
Qed.

Lemma get_In m k v : get m k = Some v -> In (k, v) m.
Proof.
  induction m as [|[k0 v0] m IH]; simpl; [discriminate|].
  destruct (String.eqb_spec k0 k); intros H.
  - left. congruence.
  - right. auto.
Qed.

Lemma In_get m k v : NoDup (keys m) -> In (k, v) m -> get m k = Some v.
Proof.
  unfold keys. induction m as [|[k0 v0] m IH]; simpl; [tauto|].
  intros Hnd [H|H].
  - injection H as -> ->. now rewrite String.eqb_refl.
  - inversion Hnd as [|? ? Hnotin Hnd']; subst.
    destruct (String.eqb_spec k0 k).
    + subst k0. exfalso. apply Hnotin.
      change k with (fst (k, v)). now apply in_map.
    + auto.
Qed.

Lemma has_In_keys m k : has m k = true <-> In k (keys m).
Proof.
  unfold has, keys. rewrite existsb_exists. split.
  - intros ([k' v'] & Hin & E). simpl in E.
    apply String.eqb_eq in E. subst k'.
    change k with (fst (k, v')). now apply in_map.
  - intros Hin. apply in_map_iff in Hin as ([k' v'] & E & Hin).
    simpl in E. subst k'. exists (k, v'). split; [assumption|].
    simpl. apply String.eqb_refl.
Qed.

End Facts.

End JsMapFacts.

(** * Facts about [createJobBatches] *)

Lemma addJob_eq (batchSize : Z) (result : QueueMap) (job : Job) :
  addJob batchSize result job =
  JsMap.set result (queue job)
    (JsMap.set (jobSetMapOf result (queue job)) (jobSet job)
       (pushJobId batchSize (batchesOf result (queue job) (jobSet job))
          (jobId job))).
Proof.
  unfold addJob, jobSetMapOf, batchesOf, getBatches, putBatches.
  rewrite JsMapFacts.has_get.
  destruct (JsMap.get result (queue job)) as [m|] eqn:Eq; simpl.
  - rewrite Eq. rewrite JsMapFacts.has_get.
    destruct (JsMap.get m (jobSet job)) as [bs|] eqn:Ejs; simpl.
    + rewrite Eq, Ejs. fold (pushJobId batchSize bs (jobId job)).
      unfold pushJobId.
      destruct ((length bs =? 0)%nat || _); reflexivity.
    + repeat (rewrite ?JsMapFacts.get_set_same; simpl).
      now rewrite !JsMapFacts.set_set.
  - repeat (rewrite ?JsMapFacts.get_set_same, ?String.eqb_refl; simpl).
    now rewrite !JsMapFacts.set_set.
Qed.

Lemma createJobBatches_snoc (jobs : list Job) (job : Job) (batchSize : Z) :
  createJobBatches (jobs ++ [job]) batchSize =
  addJob batchSize (createJobBatches jobs batchSize) job.
Proof. unfold createJobBatches. now rewrite fold_left_app. Qed.

(** ** One job ID pushed to the batches of a group *)

Lemma removelast_last_batches (bs : Batches) :
  bs <> [] -> removelast bs ++ [last bs []] = bs.
Proof. intros H. symmetry. now apply app_removelast_last. Qed.

Lemma concat_pushJobId (batchSize : Z) (bs : Batches) (id : JobId) :
  concat (pushJobId batchSize bs id) = concat bs ++ [id].
Proof.
  unfold pushJobId.
  destruct bs as [|b bs'].
  - reflexivity.
  - set (l := b :: bs'). change (length l =? 0)%nat with false.
    cbv beta iota delta [orb].
    assert (Hne : l <> []) by (subst l; discriminate).
    destruct (Z.of_nat (length (last l [])) =? batchSize)%Z.
    + rewrite concat_app. reflexivity.
    + rewrite <- (removelast_last_batches Hne) at 3.
      rewrite !concat_app. cbn [concat]. rewrite !app_nil_r.
      now rewrite app_assoc.
Qed.

Lemma concat_fold_pushJobId (batchSize : Z) (ids : list JobId) (bs : Batches) :
  concat (fold_left (pushJobId batchSize) ids bs) = concat bs ++ ids.
Proof.
  revert bs. induction ids as [|id ids IH]; intros bs; simpl.
  - now rewrite app_nil_r.
  - rewrite IH, concat_pushJobId. now rewrite <- app_assoc.
Qed.

Lemma pushJobId_withinSize (batchSize : Z) (bs : Batches) (id : JobId) :
  (1 <= batchSize)%Z ->
  Forall (withinSize batchSize) bs ->
  Forall (withinSize batchSize) (pushJobId batchSize bs id).
Proof.
  intros Hpos Hall. unfold pushJobId.
  destruct bs as [|b bs'].
  - simpl. repeat constructor. unfold withinSize. simpl. lia.
  - set (l := b :: bs') in *. change (length l =? 0)%nat with false.
    cbv beta iota delta [orb].
    assert (Hne : l <> []) by (subst l; discriminate).
    destruct (Z.eqb_spec (Z.of_nat (length (last l []))) batchSize) as [E|E].
    + apply Forall_app. split; [assumption|].
      repeat constructor. unfold withinSize. simpl. lia.
    + rewrite <- (removelast_last_batches Hne) in Hall.
      apply Forall_app in Hall as [Hinit Hlast].
      apply Forall_app. split; [assumption|].
      apply Forall_inv in Hlast.
      repeat constructor. unfold withinSize in *.
      rewrite length_app. cbn [length]. lia.
Qed.

(** ** The keys, in the order of first encounter *)

Lemma firstSeen_In (l : list string) (x : string) :
  In x (firstSeen l) <-> In x l.
Proof.
  induction l as [|a l IH]; simpl; [tauto|].
  rewrite filter_In, IH.
  destruct (String.eqb_spec x a) as [->|Hne]; simpl.
  - split; auto.
  - split.
    + intros [H|[H _]]; auto.
    + intros [H|H]; [now left|right; auto].
Qed.

Lemma firstSeen_NoDup (l : list string) : NoDup (firstSeen l).
Proof.
  induction l as [|a l IH]; simpl; constructor.
  - rewrite filter_In. intros [_ H].
    now rewrite String.eqb_refl in H.
  - now apply NoDup_filter.
Qed.

Lemma firstSeen_snoc (l : list string) (x : string) :
  firstSeen (l ++ [x]) =
  if existsb (String.eqb x) l then firstSeen l else firstSeen l ++ [x].
Proof.
  induction l as [|a l IH]; simpl; [reflexivity|].
  rewrite IH.
  destruct (String.eqb_spec x a) as [->|Hne]; simpl.
  - destruct (existsb (String.eqb a) l); [reflexivity|].
    rewrite filter_app. simpl. rewrite String.eqb_refl. simpl.
    now rewrite app_nil_r.
  - destruct (existsb (String.eqb x) l); [reflexivity|].
    rewrite filter_app. simpl.
    destruct (String.eqb_spec x a); [contradiction|reflexivity].
Qed.

Lemma existsb_eqb_In (l : list string) (x : string) :
  existsb (String.eqb x) l = true <-> In x l.
Proof.
  rewrite existsb_exists. split.
  - intros (y & Hin & E). apply String.eqb_eq in E. now subst.
  - intros H. exists x. split; [assumption|apply String.eqb_refl].
Qed.

Lemma has_firstSeen {V : Type} (m : JsMap.t V) (l : list string) (k : string) :
  JsMap.keys m = firstSeen l ->
  JsMap.has m k = existsb (String.eqb k) l.
Proof.
  intros Hk. apply eq_true_iff_eq.
  rewrite JsMapFacts.has_In_keys, Hk, firstSeen_In, existsb_eqb_In. tauto.
Qed.

Lemma keys_set_firstSeen {V : Type} (m : JsMap.t V) (l : list string)
  (k : string) (v : V) :
  JsMap.keys m = firstSeen l ->
  JsMap.keys (JsMap.set m k v) = firstSeen (l ++ [k]).
Proof.
  intros Hk. rewrite JsMapFacts.keys_set, firstSeen_snoc.
  rewrite (has_firstSeen m l k Hk), Hk. reflexivity.
Qed.

(** ** The structure built by [createJobBatches], group by group *)

Lemma jobSetMapOf_set (result : QueueMap) (q0 q : string) (m : JobSetMap) :
  jobSetMapOf (JsMap.set result q0 m) q =
  if String.eqb q0 q then m else jobSetMapOf result q.
Proof.
  unfold jobSetMapOf. destruct (String.eqb_spec q0 q) as [->|Hne].
  - now rewrite JsMapFacts.get_set_same.
  - now rewrite JsMapFacts.get_set_other.
Qed.

Lemma batchesOf_set (result : QueueMap) (q0 js0 q js : string) (bs : Batches) :
  batchesOf (JsMap.set result q0 (JsMap.set (jobSetMapOf result q0) js0 bs))
            q js =
  if String.eqb q0 q && String.eqb js0 js then bs else batchesOf result q js.
Proof.
  unfold batchesOf, getBatches.
  destruct (String.eqb_spec q0 q) as [->|Hne]; simpl.
  - rewrite JsMapFacts.get_set_same.
    destruct (String.eqb_spec js0 js) as [->|Hne].
    + now rewrite JsMapFacts.get_set_same.
    + rewrite JsMapFacts.get_set_other by assumption.
      unfold jobSetMapOf. now destruct (JsMap.get result q).
  - now rewrite JsMapFacts.get_set_other.
Qed.

Lemma keys_createJobBatches (jobs : list Job) (batchSize : Z) :
  JsMap.keys (createJobBatches jobs batchSize) = firstSeen (map queue jobs).
Proof.
  induction jobs as [|job jobs IH] using rev_ind; [reflexivity|].
  rewrite createJobBatches_snoc, addJob_eq, map_app. simpl.
  now apply keys_set_firstSeen.
Qed.

Lemma keys_jobSetMapOf (jobs : list Job) (batchSize : Z) (q : string) :
  JsMap.keys (jobSetMapOf (createJobBatches jobs batchSize) q) =
  firstSeen (map jobSet (filter (inQueue q) jobs)).
Proof.
  induction jobs as [|job jobs IH] using rev_ind; [reflexivity|].
  rewrite createJobBatches_snoc, addJob_eq, jobSetMapOf_set, filter_app.
  simpl. unfold inQueue at 2.
  destruct (String.eqb_spec (queue job) q) as [E|Hne].
  - rewrite map_app. simpl. apply keys_set_firstSeen.
    rewrite E. apply IH.
  - now rewrite app_nil_r.
Qed.

Lemma batchesOf_createJobBatches (jobs : list Job) (batchSize : Z)
  (q js : string) :
  batchesOf (createJobBatches jobs batchSize) q js =
  fold_left (pushJobId batchSize) (map jobId (filter (inGroup q js) jobs)) [].
Proof.
  induction jobs as [|job jobs IH] using rev_ind; [reflexivity|].
  rewrite createJobBatches_snoc, addJob_eq, batchesOf_set, filter_app.
  simpl. unfold inGroup at 2.
  destruct (String.eqb_spec (queue job) q) as [Eq|Hne]; simpl.
  - destruct (String.eqb_spec (jobSet job) js) as [Ejs|Hne].
    + rewrite map_app, fold_left_app. simpl. rewrite <- IH.
      now rewrite Eq, Ejs.
    + now rewrite app_nil_r.
  - now rewrite app_nil_r.
Qed.

Lemma createJobBatches_In_queue (jobs : list Job) (batchSize : Z)
  (q : string) (m : JobSetMap) :
  In (q, m) (createJobBatches jobs batchSize) ->
  m = jobSetMapOf (createJobBatches jobs batchSize) q.
Proof.
  intros Hin. unfold jobSetMapOf.
  rewrite (JsMapFacts.In_get (createJobBatches jobs batchSize) q m);
    [reflexivity| |assumption].
  rewrite keys_createJobBatches. apply firstSeen_NoDup.
Qed.

Lemma createJobBatches_In_group (jobs : list Job) (batchSize : Z)
  (q js : string) (m : JobSetMap) (bs : Batches) :
  In (q, m) (createJobBatches jobs batchSize) ->
  In (js, bs) m ->
  bs = batchesOf (createJobBatches jobs batchSize) q js.
Proof.
  intros Hq Hjs.
  pose proof (createJobBatches_In_queue _ _ _ _ Hq) as Em.
  assert (Hnd : NoDup (JsMap.keys m)).
  { rewrite Em, keys_jobSetMapOf. apply firstSeen_NoDup. }
  unfold batchesOf, getBatches.
  rewrite (JsMapFacts.In_get _ _ _
             (eq_ind_r (fun l => NoDup l) (firstSeen_NoDup _)
                       (keys_createJobBatches jobs batchSize)) Hq).
  now rewrite (JsMapFacts.In_get _ _ _ Hnd Hjs).
Qed.

Lemma In_allBatches (chunks : QueueMap) (b : list JobId) :
  In b (allBatches chunks) <->
  exists q m js bs, In (q, m) chunks /\ In (js, bs) m /\ In b bs.
Proof.
  unfold allBatches. rewrite in_flat_map. split.
  - intros ([q m] & Hq & Hb). simpl in Hb.
    apply in_flat_map in Hb as ([js bs] & Hjs & Hb). simpl in Hb.
    now exists q, m, js, bs.
  - intros (q & m & js & bs & Hq & Hjs & Hb).
    exists (q, m). split; [assumption|]. simpl.
    apply in_flat_map. now exists (js, bs).
Qed.

(** ** No job ID lost or duplicated *)

Section Content.

Variables (V X : Type) (f : V -> list X).

Lemma content_app (m1 m2 : JsMap.t V) :
  content f (m1 ++ m2) = content f m1 ++ content f m2.
Proof. apply flat_map_app. Qed.

Lemma content_set_perm (m : JsMap.t V) (k : string) (v' d : V) (x : X) :
  f d = [] ->
  Permutation (f v')
    (x :: f (match JsMap.get m k with Some v => v | None => d end)) ->
  Permutation (content f (JsMap.set m k v')) (x :: content f m).
Proof.
  intros Hd Hperm.
  destruct (JsMap.get m k) as [v|] eqn:E.
  - destruct (JsMapFacts.set_present m k E) as (l1 & l2 & Em & Eset).
    rewrite Eset, Em, !content_app. simpl.
    rewrite Hperm. simpl.
    symmetry. apply Permutation_middle.
  - rewrite JsMapFacts.set_absent by assumption.
    rewrite content_app. simpl. rewrite app_nil_r.
    rewrite Hd in Hperm. rewrite Hperm.
    symmetry. apply Permutation_cons_append.
Qed.

End Content.

Lemma concat_flat_map {A B : Type} (g : A -> list (list B)) (l : list A) :
  concat (flat_map g l) = flat_map (fun x => concat (g x)) l.
Proof.
  induction l as [|a l IH]; simpl; [reflexivity|].
  now rewrite concat_app, IH.
Qed.

Lemma allJobIds_content (chunks : QueueMap) :
  allJobIds chunks = content jobIdsOfJobSetMap chunks.
Proof. unfold allJobIds, allBatches. apply concat_flat_map. Qed.

Lemma jobIdsOfJobSetMap_content (m : JobSetMap) :
  jobIdsOfJobSetMap m = content (@concat JobId) m.
Proof. unfold jobIdsOfJobSetMap. apply concat_flat_map. Qed.

Lemma allJobIds_addJob (batchSize : Z) (result : QueueMap) (job : Job) :
  Permutation (allJobIds (addJob batchSize result job))
              (jobId job :: allJobIds result).
Proof.
  rewrite addJob_eq, !allJobIds_content.
  apply content_set_perm with (d := []); [reflexivity|].
  fold (jobSetMapOf result (queue job)).
  rewrite !jobIdsOfJobSetMap_content.
  apply content_set_perm with (d := []); [reflexivity|].
  rewrite concat_pushJobId.
  assert (E : batchesOf result (queue job) (jobSet job) =
              match JsMap.get (jobSetMapOf result (queue job)) (jobSet job)
              with Some v => v | None => [] end).
  { unfold batchesOf, getBatches, jobSetMapOf.
    now destruct (JsMap.get result (queue job)). }
  unfold Batches in E. rewrite <- E.
  symmetry. apply Permutation_cons_append.
Qed.

Lemma allJobIds_createJobBatches (jobs : list Job) (batchSize : Z) :
  Permutation (allJobIds (createJobBatches jobs batchSize))
              (map jobId jobs).
Proof.
  induction jobs as [|job jobs IH] using rev_ind; [constructor|].
  rewrite createJobBatches_snoc, allJobIds_addJob, IH, map_app.
  apply Permutation_cons_append.
Qed.

(** C2: whatever the list of jobs and the batch size, the job IDs of all
    the batches of [createJobBatches], over all queues, job-sets and
    batches, are as a multiset the job IDs of the input: none is lost and
    none is duplicated. *)
Theorem createJobBatches_multiset (jobs : list Job) (batchSize : Z) :
  Permutation (allJobIds (createJobBatches jobs batchSize)) (map jobId jobs)
  /\ forall id : JobId,
       count_occ string_dec (allJobIds (createJobBatches jobs batchSize)) id =
       count_occ string_dec (map jobId jobs) id.
Proof.
  split.
  - apply allJobIds_createJobBatches.
  - intros id. revert id. apply (Permutation_count_occ string_dec).
    apply allJobIds_createJobBatches.
Qed.

(** ** The size of a batch *)

Lemma fold_pushJobId_withinSize (batchSize : Z) (ids : list JobId)
  (bs : Batches) :
  (1 <= batchSize)%Z ->
  Forall (withinSize batchSize) bs ->
  Forall (withinSize batchSize) (fold_left (pushJobId batchSize) ids bs).
Proof.
  intros Hpos. revert bs.
  induction ids as [|id ids IH]; intros bs Hbs; simpl; [assumption|].
  apply IH. now apply pushJobId_withinSize.
Qed.

Lemma createJobBatches_withinSize (jobs : list Job) (batchSize : Z) :
  (1 <= batchSize)%Z ->
  Forall (withinSize batchSize) (allBatches (createJobBatches jobs batchSize)).
Proof.
  intros Hpos. apply Forall_forall. intros b Hb.
  apply In_allBatches in Hb as (q & m & js & bs & Hq & Hjs & Hb).
  rewrite (createJobBatches_In_group _ _ _ _ _ _ Hq Hjs) in Hb.
  rewrite batchesOf_createJobBatches in Hb.
  revert b Hb. apply Forall_forall.
  apply fold_pushJobId_withinSize; [assumption|constructor].
Qed.

(** C3, as amended: no batch that [createJobBatches] makes with the
    configured maximum, [maxJobsPerRequest = 10000], holds more job IDs
    than that; more generally, for every batch size that is a whole
    number of at least 1 every batch has at most that many job IDs. *)
Theorem createJobBatches_batch_size :
  maxJobsPerRequest = 10000%Z /\
  (forall jobs : list Job,
      Forall (withinSize maxJobsPerRequest)
             (allBatches (createJobBatches jobs maxJobsPerRequest))) /\
  (forall (jobs : list Job) (batchSize : Z),
      (1 <= batchSize)%Z ->
      Forall (withinSize batchSize)
             (allBatches (createJobBatches jobs batchSize))).
Proof.
  split; [reflexivity|]. split.
  - intros jobs. apply createJobBatches_withinSize.
    unfold maxJobsPerRequest. lia.
  - apply createJobBatches_withinSize.
Qed.

(** With the batch size 3, five jobs of one group make a batch of three
    and a batch of two. *)
Lemma createJobBatches_batch_size_witness :
  (1 <= 3)%Z /\
  Forall (withinSize 3)
    (allBatches
       (createJobBatches
          [mkJob "a" "q" "s"; mkJob "b" "q" "s"; mkJob "c" "q" "s";
           mkJob "d" "q" "s"; mkJob "e" "q" "s"] 3)).
Proof.
  split; [lia|].
  apply (proj2 (proj2 createJobBatches_batch_size)). lia.
Defined.

(** With the batch size 0 the length of the last batch is never the batch
    size, so every job of a group goes to its first batch: one job makes a
    batch of one, which is more than 0. *)
Lemma createJobBatches_batch_size_zero :
  ~ Forall (withinSize 0)
      (allBatches (createJobBatches [mkJob "a" "q" "s"] 0)).
Proof.
  intros H. apply Forall_inv in H. unfold withinSize in H. simpl in H. lia.
Qed.

(** ** Order *)

Lemma createJobBatches_group_concat (jobs : list Job) (batchSize : Z)
  (q js : string) (m : JobSetMap) (bs : Batches) :
  In (q, m) (createJobBatches jobs batchSize) ->
  In (js, bs) m ->
  concat bs = map jobId (filter (inGroup q js) jobs).
Proof.
  intros Hq Hjs.
  rewrite (createJobBatches_In_group _ _ _ _ _ _ Hq Hjs).
  rewrite batchesOf_createJobBatches, concat_fold_pushJobId.
  reflexivity.
Qed.

(** C6: whatever the list of jobs and the batch size, the queues of the
    structure are in the order in which the input first has them, the
    job-sets of a queue are in the order in which the jobs of that queue
    first have them, and the batches of a group, one after the other, hold
    the job IDs of the jobs of that group in the order of the input; so
    within each batch the job IDs are in input order. *)
Theorem createJobBatches_order (jobs : list Job) (batchSize : Z) :
  JsMap.keys (createJobBatches jobs batchSize) = firstSeen (map queue jobs) /\
  (forall q m,
      In (q, m) (createJobBatches jobs batchSize) ->
      JsMap.keys m = firstSeen (map jobSet (filter (inQueue q) jobs))) /\
  (forall q m js bs,
      In (q, m) (createJobBatches jobs batchSize) ->
      In (js, bs) m ->
      concat bs = map jobId (filter (inGroup q js) jobs)).
Proof.
  split; [apply keys_createJobBatches|]. split.
  - intros q m Hq.
    rewrite (createJobBatches_In_queue _ _ _ _ Hq).
    apply keys_jobSetMapOf.
  - intros q m js bs. apply createJobBatches_group_concat.
Qed.

(** Jobs of two queues and two job-sets, interleaved, with batch size 2. *)
Lemma createJobBatches_order_witness :
  let jobs := [mkJob "a" "q1" "s1"; mkJob "b" "q2" "s1"; mkJob "c" "q1" "s2";
               mkJob "d" "q1" "s1"; mkJob "e" "q1" "s1"] in
  createJobBatches jobs 2 =
    [("q1", [("s1", [["a"; "d"]; ["e"]]); ("s2", [["c"]])]);
     ("q2", [("s1", [["b"]])])] /\
  concat [["a"; "d"]; ["e"]] = map jobId (filter (inGroup "q1" "s1") jobs).
Proof.
  intros jobs. split; [reflexivity|].
  apply (proj2 (proj2 (createJobBatches_order jobs 2)) "q1"
           [("s1", [["a"; "d"]; ["e"]]); ("s2", [["c"]])] "s1").
  - vm_compute. auto.
  - vm_compute. auto.
Defined.

(** ** The jobs of a batch *)

Lemma createJobBatches_batch_jobs (jobs : list Job) (batchSize : Z)
  (q js : string) (m : JobSetMap) (bs : Batches) (b : list JobId) (id : JobId) :
  In (q, m) (createJobBatches jobs batchSize) ->
  In (js, bs) m -> In b bs -> In id b ->
  exists job, In job jobs /\ jobId job = id /\ queue job = q /\ jobSet job = js.
Proof.
  intros Hq Hjs Hb Hid.
  assert (Hin : In id (concat bs)).
  { apply in_concat. now exists b. }
  rewrite (createJobBatches_group_concat _ _ _ _ _ _ Hq Hjs) in Hin.
  apply in_map_iff in Hin as (job & Eid & Hjob).
  apply filter_In in Hjob as [Hjob Hgrp].
  unfold inGroup in Hgrp. apply andb_true_iff in Hgrp as [Eq Ejs].
  apply String.eqb_eq in Eq, Ejs.
  now exists job.
Qed.

(** * Facts about the effects *)

Lemma bind_cong {E A B : Type} (m m' : Eff E A) (k k' : A -> Eff E B)
  (calls : Calls) :
  m calls = m' calls ->
  (forall a c, k a c = k' a c) ->
  bind m k calls = bind m' k' calls.
Proof.
  intros Hm Hk. unfold bind. rewrite Hm.
  destruct (m' calls) as [[a|e] c]; [apply Hk|reflexivity].
Qed.

Lemma forOf_app {E A S : Type} (l1 l2 : list A) (body : A -> S -> Eff E S)
  (s : S) (calls : Calls) :
  forOf (l1 ++ l2) body s calls =
  bind (forOf l1 body s) (forOf l2 body) calls.
Proof.
  revert s calls. induction l1 as [|x l1 IH]; intros s calls; simpl.
  - reflexivity.
  - unfold bind.
    destruct (body x s calls) as [[s'|e] c]; [apply IH|reflexivity].
Qed.

(** * Facts about the mutation *)

Section MutationFacts.

Variable Err : Type.
Variable getErrorMessage : Err -> string.
Variable submitApi : nat -> PreemptJobsBody -> CallOutcome Err.

Local Abbreviation issue := (issueOne submitApi).

(** ** The nested loops make the requests of [requestsOf], in order *)

Lemma issue_batches (q js reason : string) (batches : Batches)
  (acc : list (ApiResponsePromise Err)) (calls : Calls) :
  forOf batches
    (fun batch apiResponsePromises =>
       p <- preemptJobs submitApi (mkBody batch q js reason) ;;
       ret (apiResponsePromises ++ [mkApiResponsePromise p batch]))
    acc calls =
  forOf (map (fun batch => mkBody batch q js reason) batches) issue acc calls.
Proof.
  revert acc calls.
  induction batches as [|b batches IH]; intros acc calls; simpl.
  - reflexivity.
  - apply bind_cong; [reflexivity|]. intros a c. apply IH.
Qed.

Lemma issue_jobSetMap (q reason : string) (m : JobSetMap)
  (acc : list (ApiResponsePromise Err)) (calls : Calls) :
  forOf m
    (fun '(jobSet, batches) =>
       forOf batches
         (fun batch apiResponsePromises =>
            p <- preemptJobs submitApi (mkBody batch q jobSet reason) ;;
            ret (apiResponsePromises ++ [mkApiResponsePromise p batch])))
    acc calls =
  forOf (flat_map
           (fun jb => map (fun batch => mkBody batch q (fst jb) reason)
                          (snd jb)) m)
        issue acc calls.
Proof.
  revert acc calls.
  induction m as [|[js bs] m IH]; intros acc calls; simpl.
  - reflexivity.
  - rewrite forOf_app.
    apply bind_cong; [apply issue_batches|]. intros a c. apply IH.
Qed.

Lemma issue_chunks (reason : string) (chunks : QueueMap)
  (acc : list (ApiResponsePromise Err)) (calls : Calls) :
  forOf chunks
    (fun '(queue, jobSetMap) =>
       forOf jobSetMap
         (fun '(jobSet, batches) =>
            forOf batches
              (fun batch apiResponsePromises =>
                 p <- preemptJobs submitApi
                        (mkBody batch queue jobSet reason) ;;
                 ret (apiResponsePromises
                        ++ [mkApiResponsePromise p batch]))))
    acc calls =
  forOf (requestsOf chunks reason) issue acc calls.
Proof.
  revert acc calls.
  induction chunks as [|[q m] chunks IH]; intros acc calls; simpl.
  - reflexivity.
  - rewrite forOf_app.
    apply bind_cong; [apply issue_jobSetMap|]. intros a c. apply IH.
Qed.

Lemma issueRequests_requestsOf (chunks : QueueMap) (reason : string)
  (calls : Calls) :
  issueRequests submitApi chunks reason calls =
  forOf (requestsOf chunks reason) issue [] calls.
Proof. apply issue_chunks. Qed.

(** ** What the requests give *)

Lemma issue_noThrow (requests : list PreemptJobsBody) :
  forall (acc : list (ApiResponsePromise Err)) (calls : Calls),
    (forall i body, nth_error requests i = Some body ->
                    exists p, submitApi (length calls + i) body = Returns p) ->
    forOf requests issue acc calls =
    (Normal (acc ++ promisesFrom submitApi (length calls) requests),
     calls ++ requests).
Proof.
  induction requests as [|b requests IH]; intros acc calls H; simpl.
  - unfold ret. now rewrite !app_nil_r.
  - destruct (H 0 b eq_refl) as [p Hp]. rewrite Nat.add_0_r in Hp.
    unfold bind at 1. unfold issueOne at 1, bind, preemptJobs, ret.
    rewrite Hp. rewrite IH.
    + rewrite length_app. simpl. rewrite Nat.add_1_r.
      now rewrite <- !app_assoc.
    + intros i body Hi. rewrite length_app. simpl.
      replace (length calls + 1 + i) with (length calls + S i) by lia.
      now apply H.
Qed.

Lemma issue_throws (pre post : list PreemptJobsBody) (b : PreemptJobsBody)
  (e : Err) (acc : list (ApiResponsePromise Err)) (calls : Calls) :
  (forall i body, nth_error pre i = Some body ->
                  exists p, submitApi (length calls + i) body = Returns p) ->
  submitApi (length calls + length pre) b = Throws e ->
  forOf (pre ++ b :: post) issue acc calls =
  (Throw e, calls ++ pre ++ [b]).
Proof.
  intros Hpre Hb. rewrite forOf_app. unfold bind at 1.
  rewrite issue_noThrow by assumption. simpl.
  unfold bind at 1. unfold issueOne at 1, bind, preemptJobs.
  rewrite length_app, Hb. now rewrite <- app_assoc.
Qed.

Lemma issue_prefix (requests : list PreemptJobsBody) :
  forall (acc : list (ApiResponsePromise Err)) (calls : Calls),
  exists pre post,
    requests = pre ++ post /\
    snd (forOf requests issue acc calls) = calls ++ pre.
Proof.
  induction requests as [|b requests IH]; intros acc calls; simpl.
  - exists [], []. split; [reflexivity|]. simpl. now rewrite app_nil_r.
  - unfold bind at 1. unfold issueOne at 1, bind, preemptJobs, ret.
    destruct (submitApi (length calls) b) as [e|p].
    + exists [b], requests. split; reflexivity.
    + destruct (IH (acc ++ [mkApiResponsePromise p (body_jobIds b)])
                   (calls ++ [b])) as (pre & post & E & Hsnd).
      exists (b :: pre), post. split.
      * simpl. now rewrite E.
      * rewrite Hsnd. now rewrite <- app_assoc.
Qed.

(** ** The loop that awaits never throws and makes no call *)

Lemma collectResponses_normal (arps : list (ApiResponsePromise Err)) :
  forall (response : UpdateJobsResponse) (calls : Calls),
    collectResponses getErrorMessage arps response calls =
    (Normal
       (mkResponse
          (successfulJobIds response ++ flat_map (@successesOf Err) arps)
          (failedJobIds response
             ++ flat_map (failuresOf getErrorMessage) arps)),
     calls).
Proof.
  unfold collectResponses.
  induction arps as [|a arps IH]; intros [succ failed] calls; simpl.
  - unfold ret. now rewrite !app_nil_r.
  - unfold bind at 1. unfold tryCatch, bind, await, successesOf, failuresOf.
    destruct (promise a) as [|e]; simpl; rewrite IH; simpl;
      now rewrite <- !app_assoc.
Qed.

End MutationFacts.

(** ** Requests and batches *)

Lemma In_requestsOf (chunks : QueueMap) (reason : string)
  (body : PreemptJobsBody) :
  In body (requestsOf chunks reason) <->
  exists q m js bs b,
    In (q, m) chunks /\ In (js, bs) m /\ In b bs /\
    body = mkBody b q js reason.
Proof.
  unfold requestsOf. rewrite in_flat_map. split.
  - intros ([q m] & Hq & Hb). simpl in Hb.
    apply in_flat_map in Hb as ([js bs] & Hjs & Hb). simpl in Hb.
    apply in_map_iff in Hb as (b & E & Hb).
    exists q, m, js, bs, b. auto.
  - intros (q & m & js & bs & b & Hq & Hjs & Hb & ->).
    exists (q, m). split; [assumption|]. simpl.
    apply in_flat_map. exists (js, bs). split; [assumption|]. simpl.
    apply in_map_iff. now exists b.
Qed.

Lemma requestsOf_jobIds (chunks : QueueMap) (reason : string) :
  map body_jobIds (requestsOf chunks reason) = allBatches chunks.
Proof.
  unfold requestsOf, allBatches.
  induction chunks as [|[q m] chunks IH]; simpl; [reflexivity|].
  rewrite map_app, IH. f_equal.
  induction m as [|[js bs] m IHm]; simpl; [reflexivity|].
  rewrite map_app, IHm. f_equal.
  rewrite map_map. simpl. apply map_id.
Qed.

Section Aggregation.

Variable Err : Type.
Variable getErrorMessage : Err -> string.
Variable submitApi : nat -> PreemptJobsBody -> CallOutcome Err.

Lemma promisesFrom_jobIds (requests : list PreemptJobsBody) (n : nat) :
  map (@jobIds Err) (promisesFrom submitApi n requests) =
  map body_jobIds requests.
Proof.
  revert n. induction requests as [|b requests IH]; intros n; simpl.
  - reflexivity.
  - now rewrite IH.
Qed.

Lemma In_promisesFrom (requests : list PreemptJobsBody) (n : nat)
  (a : ApiResponsePromise Err) :
  In a (promisesFrom submitApi n requests) <->
  exists i body,
    nth_error requests i = Some body /\
    a = mkApiResponsePromise (promiseOf (submitApi (n + i) body))
                             (body_jobIds body).
Proof.
  revert n. induction requests as [|b requests IH]; intros n; simpl.
  - split; [tauto|]. intros (i & body & H & _). now destruct i.
  - rewrite IH. split.
    + intros [E|(i & body & H & E)].
      * exists 0, b. rewrite Nat.add_0_r. auto.
      * exists (S i), body. rewrite Nat.add_succ_r. auto.
    + intros ([|i] & body & H & E); simpl in H.
      * injection H as ->. rewrite Nat.add_0_r in E. auto.
      * right. exists i, body. rewrite Nat.add_succ_r in E. auto.
Qed.

Lemma reported_perm (arps : list (ApiResponsePromise Err)) :
  Permutation
    (flat_map (@successesOf Err) arps
       ++ map failed_jobId (flat_map (failuresOf getErrorMessage) arps))
    (concat (map (@jobIds Err) arps)).
Proof.
  induction arps as [|a arps IH]; simpl; [constructor|].
  unfold successesOf at 1, failuresOf at 1.
  destruct (promise a) as [|e]; simpl.
  - rewrite <- app_assoc. now apply Permutation_app_head.
  - rewrite map_app, map_map. simpl. rewrite map_id.
    rewrite <- IH. rewrite !app_assoc.
    apply Permutation_app_tail. apply Permutation_app_comm.
Qed.

Lemma all_fulfilled (arps : list (ApiResponsePromise Err)) :
  Forall (fun a => promise a = Fulfilled) arps ->
  flat_map (@successesOf Err) arps = concat (map (@jobIds Err) arps) /\
  flat_map (failuresOf getErrorMessage) arps = [].
Proof.
  induction 1 as [|a arps Ha _ [IHs IHf]]; simpl; [auto|].
  unfold successesOf at 1, failuresOf at 1. rewrite Ha, IHs, IHf. auto.
Qed.

(** The response of a run in which no call throws. *)
Lemma tryBlock_normal (jobs : list Job) (reason : string) :
  let requests :=
    requestsOf (createJobBatches jobs maxJobsPerRequest) reason in
  let arps := promisesFrom submitApi 0 requests in
  noCallThrows submitApi requests ->
  tryBlock getErrorMessage submitApi jobs reason [] =
  (Normal (mkResponse (flat_map (@successesOf Err) arps)
                      (flat_map (failuresOf getErrorMessage) arps)),
   requests).
Proof.
  intros requests arps Hno. unfold tryBlock, bind.
  rewrite issueRequests_requestsOf.
  rewrite issue_noThrow by exact Hno.
  rewrite collectResponses_normal. reflexivity.
Qed.

(** An error that a call throws escapes the body of the outer [try]. *)
Lemma tryBlock_throws (jobs : list Job) (reason : string)
  (pre post : list PreemptJobsBody) (b : PreemptJobsBody) (e : Err) :
  requestsOf (createJobBatches jobs maxJobsPerRequest) reason
    = pre ++ b :: post ->
  noCallThrows submitApi pre ->
  submitApi (length pre) b = Throws e ->
  tryBlock getErrorMessage submitApi jobs reason [] =
  (Throw e, pre ++ [b]).
Proof.
  intros E Hpre Hb. unfold tryBlock, bind.
  rewrite issueRequests_requestsOf, E.
  rewrite issue_throws with (e := e); [reflexivity|exact Hpre|exact Hb].
Qed.

(** The calls made are always the first requests of [requestsOf]. *)
Lemma tryBlock_calls (jobs : list Job) (reason : string) :
  exists rest,
    requestsOf (createJobBatches jobs maxJobsPerRequest) reason =
    snd (tryBlock getErrorMessage submitApi jobs reason []) ++ rest.
Proof.
  unfold tryBlock, bind. rewrite issueRequests_requestsOf.
  destruct (issue_prefix submitApi
              (requestsOf (createJobBatches jobs maxJobsPerRequest) reason)
              [] []) as (pre & post & E & Hsnd).
  exists post.
  destruct (forOf _ _ _ _) as [[arps|e] calls]; simpl in *.
  - rewrite collectResponses_normal. simpl. now rewrite Hsnd.
  - now rewrite Hsnd.
Qed.

End Aggregation.

Lemma NoDup_app_disjoint {A : Type} (l1 l2 : list A) (x : A) :
  NoDup (l1 ++ l2) -> In x l1 -> In x l2 -> False.
Proof.
  induction l1 as [|a l1 IH]; simpl; [tauto|].
  intros Hnd [->|H1] H2; inversion Hnd as [|? ? Hnotin Hnd']; subst.
  - apply Hnotin. apply in_or_app. now right.
  - now apply IH.
Qed.

Lemma tryCatch_throw_calls {E A : Type} (m : Eff E A) (f : E -> string)
  (calls : Calls) :
  snd (tryCatch m (fun e => throw (f e)) calls) = snd (m calls).
Proof. unfold tryCatch, throw. now destruct (m calls) as [[a|e] c]. Qed.

(** * The properties of the mutation *)

Section Properties.

Variable Err : Type.
Variable getErrorMessage : Err -> string.
Variable config : Config.
Variable submitApi : nat -> PreemptJobsBody -> CallOutcome Err.

Local Abbreviation mutation := (mutationFn getErrorMessage config submitApi).
Local Abbreviation requestsFor jobs reason :=
  (requestsOf (createJobBatches jobs maxJobsPerRequest) reason).

Lemma mutationFn_normal (jobs : list Job) (reason : string) :
  fakeDataEnabled config = false ->
  noCallThrows submitApi (requestsFor jobs reason) ->
  mutation jobs reason [] =
  (Normal
     (mkResponse
        (flat_map (@successesOf Err)
           (promisesFrom submitApi 0 (requestsFor jobs reason)))
        (flat_map (failuresOf getErrorMessage)
           (promisesFrom submitApi 0 (requestsFor jobs reason)))),
   requestsFor jobs reason).
Proof.
  intros Hfake Hno. unfold mutationFn, tryCatch.
  rewrite Hfake, tryBlock_normal by exact Hno. reflexivity.
Qed.

Lemma reported_input (jobs : list Job) (reason : string) :
  Permutation
    (flat_map (@successesOf Err)
       (promisesFrom submitApi 0 (requestsFor jobs reason))
     ++ map failed_jobId
          (flat_map (failuresOf getErrorMessage)
             (promisesFrom submitApi 0 (requestsFor jobs reason))))
    (map jobId jobs).
Proof.
  rewrite reported_perm, promisesFrom_jobIds, requestsOf_jobIds.
  apply allJobIds_createJobBatches.
Qed.

(** C1, as amended: with fake-data mode disabled and no call throwing,
    the mutation returns a response whose two lists together hold the
    submitted job IDs, each as often as the input has it; when the job
    IDs of the input are pairwise distinct, every one of them is in
    exactly one of the two lists. *)
Theorem mutation_partitions_input (jobs : list Job) (reason : string) :
  fakeDataEnabled config = false ->
  noCallThrows submitApi (requestsFor jobs reason) ->
  exists r,
    mutation jobs reason [] = (Normal r, requestsFor jobs reason) /\
    Permutation
      (successfulJobIds r ++ map failed_jobId (failedJobIds r))
      (map jobId jobs) /\
    (NoDup (map jobId jobs) ->
     forall id, In id (map jobId jobs) -> inExactlyOneList id r).
Proof.
  intros Hfake Hno. eexists. split; [now apply mutationFn_normal|].
  simpl. pose proof (reported_input jobs reason) as Hperm.
  split; [exact Hperm|].
  intros Hnd id Hid.
  apply (Permutation_NoDup (Permutation_sym Hperm)) in Hnd.
  apply (Permutation_in _ (Permutation_sym Hperm)) in Hid.
  unfold inExactlyOneList. simpl.
  apply in_app_or in Hid as [Hs|Hf]; [left|right]; split; try assumption;
    intros H; exact (NoDup_app_disjoint _ _ _ Hnd ltac:(eassumption)
                                        ltac:(eassumption)).
Qed.

(** C4, as amended: in every run with fake-data mode disabled and no
    top-level error, which is one in which no call throws, the mutation
    makes every request and returns a response in which the failed
    entries are exactly the job IDs of the requests that failed, each
    with the message that [getErrorMessage] gives for the failure of its
    request, and the successful job IDs are exactly those of the
    requests that succeeded: a failure leaves the other batches to be
    processed and reported. *)
Theorem mutation_batch_failures (jobs : list Job) (reason : string) :
  fakeDataEnabled config = false ->
  noCallThrows submitApi (requestsFor jobs reason) ->
  exists r,
    mutation jobs reason [] = (Normal r, requestsFor jobs reason) /\
    (forall id msg,
        In (mkFailed id msg) (failedJobIds r) <->
        exists i body e,
          nth_error (requestsFor jobs reason) i = Some body /\
          requestFails submitApi i body e /\
          In id (body_jobIds body) /\
          msg = getErrorMessage e) /\
    (forall id,
        In id (successfulJobIds r) <->
        exists i body,
          nth_error (requestsFor jobs reason) i = Some body /\
          requestSucceeds submitApi i body /\
          In id (body_jobIds body)).
Proof.
  intros Hfake Hno. eexists. split; [now apply mutationFn_normal|].
  simpl. split.
  - intros id msg. rewrite in_flat_map. split.
    + intros (a & Ha & Hin).
      apply In_promisesFrom in Ha as (i & body & Hi & ->).
      destruct (Hno i body Hi) as [p Hp]. simpl in Hin.
      rewrite Hp in Hin. unfold failuresOf in Hin. simpl in Hin.
      destruct p as [|e]; [contradiction|].
      apply in_map_iff in Hin as (id' & E & Hid).
      injection E as -> <-. now exists i, body, e.
    + intros (i & body & e & Hi & Hfail & Hid & ->).
      exists (mkApiResponsePromise (Rejected e) (body_jobIds body)). split.
      * apply In_promisesFrom. exists i, body. split; [assumption|].
        simpl. unfold requestFails in Hfail. now rewrite Hfail.
      * unfold failuresOf. simpl.
        now apply (in_map (fun id => mkFailed id (getErrorMessage e))).
  - intros id. rewrite in_flat_map. split.
    + intros (a & Ha & Hin).
      apply In_promisesFrom in Ha as (i & body & Hi & ->).
      destruct (Hno i body Hi) as [p Hp]. simpl in Hin.
      rewrite Hp in Hin. unfold successesOf in Hin. simpl in Hin.
      destruct p as [|e]; [|contradiction].
      now exists i, body.
    + intros (i & body & Hi & Hok & Hid).
      exists (mkApiResponsePromise Fulfilled (body_jobIds body)). split.
      * apply In_promisesFrom. exists i, body. split; [assumption|].
        simpl. unfold requestSucceeds in Hok. now rewrite Hok.
      * exact Hid.
Qed.

(** C5, as amended: when every request succeeds, the mutation returns a
    response whose successful list holds every input job ID as often as
    the input has it, which is exactly once when the job IDs of the
    input are pairwise distinct, and whose failed list is empty. *)
Theorem mutation_all_success (jobs : list Job) (reason : string) :
  (forall i body,
      nth_error (requestsFor jobs reason) i = Some body ->
      requestSucceeds submitApi i body) ->
  exists r calls,
    mutation jobs reason [] = (Normal r, calls) /\
    Permutation (successfulJobIds r) (map jobId jobs) /\
    (NoDup (map jobId jobs) ->
     forall id, In id (map jobId jobs) ->
                count_occ string_dec (successfulJobIds r) id = 1) /\
    failedJobIds r = [].
Proof.
  intros Hok.
  assert (Hcount : forall l : list JobId,
             Permutation l (map jobId jobs) ->
             NoDup (map jobId jobs) ->
             forall id, In id (map jobId jobs) ->
                        count_occ string_dec l id = 1).
  { intros l Hperm Hnd id Hid.
    apply (NoDup_count_occ' string_dec).
    - exact (Permutation_NoDup (Permutation_sym Hperm) Hnd).
    - exact (Permutation_in _ (Permutation_sym Hperm) Hid). }
  destruct (fakeDataEnabled config) eqn:Hfake.
  - exists (mkResponse (map jobId jobs) []), [].
    unfold mutationFn. rewrite Hfake. simpl.
    repeat split; auto.
  - assert (Hno : noCallThrows submitApi (requestsFor jobs reason)).
    { intros i body Hi. exists Fulfilled. now apply Hok. }
    assert (Hall : Forall (fun a => promise a = Fulfilled)
                     (promisesFrom submitApi 0 (requestsFor jobs reason))).
    { apply Forall_forall. intros a Ha.
      apply In_promisesFrom in Ha as (i & body & Hi & ->). simpl.
      unfold requestSucceeds in Hok. now rewrite (Hok i body Hi). }
    destruct (all_fulfilled getErrorMessage Hall) as [Es Ef].
    pose proof (reported_input jobs reason) as Hperm.
    rewrite Ef in Hperm. simpl in Hperm. rewrite app_nil_r in Hperm.
    eexists. eexists. split; [now apply mutationFn_normal|].
    simpl. repeat split; auto.
Qed.

(** C7: every batch of [createJobBatches] holds only job IDs of jobs of
    the queue and the job-set that it is stored under; the requests are
    one for each batch, with that batch's job IDs, that queue, that
    job-set and the reason given to the mutation; the calls that the
    mutation makes are always the first of these requests, in order, and
    all of them when fake-data mode is disabled and no call throws. *)
Theorem batches_and_requests (jobs : list Job) (reason : string) :
  (forall batchSize q m js bs b id,
      In (q, m) (createJobBatches jobs batchSize) ->
      In (js, bs) m -> In b bs -> In id b ->
      exists job,
        In job jobs /\ jobId job = id /\ queue job = q /\ jobSet job = js) /\
  (forall body,
      In body (requestsFor jobs reason) <->
      exists q m js bs b,
        In (q, m) (createJobBatches jobs maxJobsPerRequest) /\
        In (js, bs) m /\ In b bs /\
        body = mkBody b q js reason) /\
  (exists rest,
      requestsFor jobs reason = snd (mutation jobs reason []) ++ rest) /\
  (fakeDataEnabled config = false ->
   noCallThrows submitApi (requestsFor jobs reason) ->
   snd (mutation jobs reason []) = requestsFor jobs reason).
Proof.
  split; [|split; [|split]].
  - intros batchSize q m js bs b id.
    apply createJobBatches_batch_jobs.
  - intros body. apply In_requestsOf.
  - unfold mutationFn. destruct (fakeDataEnabled config).
    + exists (requestsFor jobs reason). reflexivity.
    + rewrite tryCatch_throw_calls. apply tryBlock_calls.
  - intros Hfake Hno. now rewrite mutationFn_normal.
Qed.

(** C8: for the empty list of jobs [createJobBatches] gives a structure
    with no batch, and the mutation makes no call and returns a response
    whose two lists are empty. *)
Theorem empty_input (batchSize : Z) (reason : string) :
  createJobBatches [] batchSize = [] /\
  allBatches (createJobBatches [] batchSize) = [] /\
  mutation [] reason [] = (Normal (mkResponse [] []), []).
Proof.
  repeat split. unfold mutationFn.
  destruct (fakeDataEnabled config); reflexivity.
Qed.

(** C9: with fake-data mode disabled, when an error escapes the body of
    the outer [try], the mutation returns no response: it throws the
    message that [getErrorMessage] gives for that error. *)
Theorem top_level_error (jobs : list Job) (reason : string)
  (calls calls' : Calls) (e : Err) :
  fakeDataEnabled config = false ->
  tryBlock getErrorMessage submitApi jobs reason calls = (Throw e, calls') ->
  mutation jobs reason calls = (Throw (getErrorMessage e), calls').
Proof.
  intros Hfake Hthrow. unfold mutationFn, tryCatch.
  rewrite Hfake, Hthrow. reflexivity.
Qed.

(** C10: with [fakeDataEnabled] set, the mutation makes no call and
    returns, for every input, a response whose successful job IDs are
    the job IDs of the input jobs in input order and whose failed list
    is empty. *)
Theorem fake_data_mode (jobs : list Job) (reason : string) (calls : Calls) :
  fakeDataEnabled config = true ->
  mutation jobs reason calls =
  (Normal (mkResponse (map jobId jobs) []), calls).
Proof.
  intros Hfake. unfold mutationFn. rewrite Hfake. reflexivity.
Qed.

End Properties.

(** * Runs *)

(** With batch size 2 the three jobs of [q1] and [s1] make two batches. *)
Example createJobBatches_size_two :
  createJobBatches exampleJobs 2 =
  [("q1", [("s1", [["a"; "d"]; ["e"]]); ("s2", [["c"]])]);
   ("q2", [("s1", [["b"]])])].
Proof. reflexivity. Qed.

(** With batch size 0 no batch is ever full: one batch for each group. *)
Example createJobBatches_size_zero :
  createJobBatches exampleJobs 0 =
  [("q1", [("s1", [["a"; "d"; "e"]]); ("s2", [["c"]])]);
   ("q2", [("s1", [["b"]])])].
Proof. reflexivity. Qed.

(** A run in which the two requests for [q1] fail and the third succeeds. *)
Example mutationFn_mixed_run :
  mutationFn exampleMessage (mkConfig false) (rejectQueue "q1" "boom")
             exampleJobs "why" [] =
  (Normal
     (mkResponse ["b"]
        [mkFailed "a" "Error: boom"; mkFailed "d" "Error: boom";
         mkFailed "e" "Error: boom"; mkFailed "c" "Error: boom"]),
   [mkBody ["a"; "d"; "e"] "q1" "s1" "why"; mkBody ["c"] "q1" "s2" "why";
    mkBody ["b"] "q2" "s1" "why"]).
Proof. vm_compute. reflexivity. Qed.

(** A run in which the second call throws: the third request is not made
    and no response is returned. *)
Example mutationFn_throwing_run :
  mutationFn exampleMessage (mkConfig false) (throwAtCall 1 "bang")
             exampleJobs "why" [] =
  (Throw "Error: bang",
   [mkBody ["a"; "d"; "e"] "q1" "s1" "why"; mkBody ["c"] "q1" "s2" "why"]).
Proof. vm_compute. reflexivity. Qed.

Ltac distinct_ids :=
  repeat (constructor; [simpl; intuition discriminate|]); constructor.

Lemma allSucceed_noCallThrows (requests : list PreemptJobsBody) :
  noCallThrows allSucceed requests.
Proof. intros i body _. now exists Fulfilled. Qed.

Lemma rejectQueue_noCallThrows (q e : string)
  (requests : list PreemptJobsBody) :
  noCallThrows (rejectQueue q e) requests.
Proof.
  intros i body _. unfold rejectQueue.
  destruct (String.eqb (body_queue body) q); eexists; reflexivity.
Qed.

Lemma rejectFromCall_noCallThrows (n : nat) (e : string)
  (requests : list PreemptJobsBody) :
  noCallThrows (rejectFromCall n e) requests.
Proof.
  intros i body _. unfold rejectFromCall.
  destruct (i <? n)%nat; eexists; reflexivity.
Qed.

(** The request for queue [q2] fails; job [b] is in the failed list only. *)
Lemma mutation_partitions_input_witness :
  exists r,
    mutationFn exampleMessage (mkConfig false) (rejectQueue "q2" "boom")
               exampleJobs "why" [] =
    (Normal r, requestsOf (createJobBatches exampleJobs maxJobsPerRequest) "why")
    /\ successfulJobIds r = ["a"; "d"; "e"; "c"]
    /\ inExactlyOneList "b" r.
Proof.
  destruct (@mutation_partitions_input string exampleMessage (mkConfig false)
              (rejectQueue "q2" "boom") exampleJobs "why" eq_refl
              (rejectQueue_noCallThrows _ _ _)) as (r & E & _ & H).
  exists r. split; [exact E|]. split.
  - vm_compute in E. now injection E as <-.
  - apply H; [unfold exampleJobs; simpl; distinct_ids|].
    simpl. auto.
Defined.

(** The two requests for queue [q1] fail with [boom]: job [a] is reported
    with the message for [boom], and job [b], of the request made after
    them, is reported successful. *)
Lemma mutation_batch_failures_witness :
  exists r,
    mutationFn exampleMessage (mkConfig false) (rejectQueue "q1" "boom")
               exampleJobs "why" [] =
    (Normal r, requestsOf (createJobBatches exampleJobs maxJobsPerRequest) "why")
    /\ In (mkFailed "a" "Error: boom") (failedJobIds r)
    /\ In "b" (successfulJobIds r).
Proof.
  destruct (@mutation_batch_failures string exampleMessage (mkConfig false)
              (rejectQueue "q1" "boom") exampleJobs "why" eq_refl
              (rejectQueue_noCallThrows _ _ _)) as (r & E & Hf & Hs).
  exists r. split; [exact E|]. split.
  - apply Hf. exists 0, (mkBody ["a"; "d"; "e"] "q1" "s1" "why"), "boom".
    repeat split. simpl. auto.
  - apply Hs. exists 2, (mkBody ["b"] "q2" "s1" "why").
    repeat split. simpl. auto.
Defined.

(** The request for the first batch fails and the second call throws:
    the mutation returns no response, so the job IDs of the failed batch
    are in no [failedJobIds], and the request for the third batch is
    never made. *)
Lemma mutation_batch_failures_top_level_error :
  let requests :=
    requestsOf (createJobBatches exampleJobs maxJobsPerRequest) "why" in
  let run :=
    mutationFn exampleMessage (mkConfig false) (rejectThenThrow "boom" "bang")
               exampleJobs "why" [] in
  requests =
    [mkBody ["a"; "d"; "e"] "q1" "s1" "why"; mkBody ["c"] "q1" "s2" "why";
     mkBody ["b"] "q2" "s1" "why"] /\
  requestFails (rejectThenThrow "boom" "bang") 0
               (mkBody ["a"; "d"; "e"] "q1" "s1" "why") "boom" /\
  run =
    (Throw "Error: bang",
     [mkBody ["a"; "d"; "e"] "q1" "s1" "why"; mkBody ["c"] "q1" "s2" "why"])
  /\
  ~ (exists r calls,
        run = (Normal r, calls) /\
        In (mkFailed "a" "Error: boom") (failedJobIds r)).
Proof.
  intros requests run.
  assert (Hrun : run =
            (Throw "Error: bang",
             [mkBody ["a"; "d"; "e"] "q1" "s1" "why";
              mkBody ["c"] "q1" "s2" "why"]))
    by (vm_compute; reflexivity).
  split; [vm_compute; reflexivity|]. split; [reflexivity|].
  split; [exact Hrun|].
  intros (r & calls & E & _). rewrite Hrun in E. discriminate.
Qed.

(** Every request succeeds. *)
Lemma mutation_all_success_witness :
  exists r calls,
    mutationFn exampleMessage (mkConfig false) allSucceed
               exampleJobs "why" [] = (Normal r, calls)
    /\ count_occ string_dec (successfulJobIds r) "d" = 1
    /\ failedJobIds r = [].
Proof.
  destruct (@mutation_all_success string exampleMessage (mkConfig false)
              allSucceed exampleJobs "why" (fun i body _ => eq_refl))
    as (r & calls & E & _ & H & Hf).
  exists r, calls. split; [exact E|]. split; [|exact Hf].
  apply H; [unfold exampleJobs; simpl; distinct_ids|].
  simpl. auto.
Defined.

(** The batch [a; d] is stored under [q1] and [s1], and job [d] is a job
    of that queue and job-set; the calls are the four requests. *)
Lemma batches_and_requests_witness :
  (exists job,
      In job exampleJobs /\ jobId job = "d" /\
      queue job = "q1" /\ jobSet job = "s1") /\
  snd (mutationFn exampleMessage (mkConfig false) (rejectQueue "q2" "boom")
                  exampleJobs "why" []) =
  [mkBody ["a"; "d"; "e"] "q1" "s1" "why"; mkBody ["c"] "q1" "s2" "why";
   mkBody ["b"] "q2" "s1" "why"].
Proof.
  destruct (@batches_and_requests string exampleMessage (mkConfig false)
              (rejectQueue "q2" "boom") exampleJobs "why")
    as (Hjobs & _ & _ & Hcalls).
  split.
  - apply (Hjobs 2%Z "q1" [("s1", [["a"; "d"]; ["e"]]); ("s2", [["c"]])]
             "s1" [["a"; "d"]; ["e"]] ["a"; "d"] "d");
      vm_compute; auto.
  - rewrite (Hcalls eq_refl (rejectQueue_noCallThrows _ _ _)).
    vm_compute. reflexivity.
Defined.

(** The second call throws [bang]. *)
Lemma top_level_error_witness :
  mutationFn exampleMessage (mkConfig false) (throwAtCall 1 "bang")
             exampleJobs "why" [] =
  (Throw "Error: bang",
   [mkBody ["a"; "d"; "e"] "q1" "s1" "why"; mkBody ["c"] "q1" "s2" "why"]).
Proof.
  apply (@top_level_error string exampleMessage (mkConfig false)
           (throwAtCall 1 "bang") exampleJobs "why" [] _ "bang" eq_refl).
  vm_compute. reflexivity.
Defined.

(** In fake-data mode the API client is not called, even one that throws. *)
Lemma fake_data_mode_witness :
  mutationFn exampleMessage (mkConfig true) (throwAtCall 0 "bang")
             exampleJobs "why" [] =
  (Normal (mkResponse ["a"; "b"; "c"; "d"; "e"] []), []).
Proof.
  apply (@fake_data_mode string exampleMessage (mkConfig true)
           (throwAtCall 0 "bang") exampleJobs "why" [] eq_refl).
Defined.

(** A job that is listed twice is reported twice, though all succeed. *)
Lemma mutation_all_success_duplicate :
  let jobs := [mkJob "a" "q" "s"; mkJob "a" "q" "s"] in
  exists r calls,
    mutationFn exampleMessage (mkConfig false) allSucceed jobs "" [] =
      (Normal r, calls) /\
    (forall i body,
        nth_error (requestsOf (createJobBatches jobs maxJobsPerRequest) "") i
          = Some body ->
        requestSucceeds allSucceed i body) /\
    In "a" (map jobId jobs) /\
    count_occ string_dec (successfulJobIds r) "a" <> 1.
Proof.
  intros jobs. eexists. eexists. split; [vm_compute; reflexivity|].
  split; [reflexivity|]. split; [simpl; auto|].
  vm_compute. discriminate.
Qed.

(** ** One job listed more often than a batch holds *)

#[local] Set Warnings "-abstract-large-number".

Lemma fold_pushJobId_repeat (id : JobId) (n k : nat) :
  k < n ->
  fold_left (pushJobId (Z.of_nat n)) (repeat id (S k)) [] = [repeat id (S k)].
Proof.
  induction k as [|k IH]; intros Hk.
  - reflexivity.
  - change (repeat id (S (S k))) with (id :: repeat id (S k)).
    rewrite repeat_cons, fold_left_app, IH by lia.
    set (l := repeat id (S k)).
    cbn [fold_left]. unfold pushJobId. cbn [length last removelast Nat.eqb orb].
    subst l. rewrite repeat_length.
    destruct (Z.eqb_spec (Z.of_nat (S k)) (Z.of_nat n)); [lia|reflexivity].
Qed.

Lemma fold_pushJobId_repeat_over (id : JobId) (n : nat) :
  1 <= n ->
  fold_left (pushJobId (Z.of_nat n)) (repeat id (S n)) [] =
  [repeat id n; [id]].
Proof.
  intros Hn. destruct n as [|k]; [lia|].
  change (repeat id (S (S k))) with (id :: repeat id (S k)).
  rewrite repeat_cons, fold_left_app, fold_pushJobId_repeat by lia.
  set (l := repeat id (S k)).
  cbn [fold_left]. unfold pushJobId. cbn [length last Nat.eqb orb].
  subst l. rewrite repeat_length, Z.eqb_refl. reflexivity.
Qed.

Lemma createJobBatches_one_group (job : Job) (n : nat) (batchSize : Z) :
  createJobBatches (repeat job (S n)) batchSize =
  [(queue job,
    [(jobSet job,
      fold_left (pushJobId batchSize) (repeat (jobId job) (S n)) [])])].
Proof.
  induction n as [|n IH].
  - unfold createJobBatches. cbn [repeat fold_left].
    rewrite addJob_eq. reflexivity.
  - change (repeat job (S (S n))) with (job :: repeat job (S n)).
    change (repeat (jobId job) (S (S n)))
      with (jobId job :: repeat (jobId job) (S n)).
    rewrite !repeat_cons, createJobBatches_snoc, IH, addJob_eq, fold_left_app.
    unfold jobSetMapOf, batchesOf, getBatches.
    cbn [JsMap.get JsMap.set]. rewrite !String.eqb_refl.
    cbn [JsMap.get JsMap.set]. rewrite !String.eqb_refl.
    reflexivity.
Qed.

(** A job listed 10001 times makes a full batch and a batch of one.  When
    the first request succeeds and the second fails, its job ID is in both
    lists of the response. *)
Lemma mutation_partitions_input_duplicate :
  let jobs := repeat (mkJob "a" "q" "s") 10001 in
  let api := rejectFromCall 1 "refused" in
  noCallThrows api (requestsOf (createJobBatches jobs maxJobsPerRequest) "") /\
  exists r calls,
    mutationFn exampleMessage (mkConfig false) api jobs "" [] =
      (Normal r, calls) /\
    In "a" (map jobId jobs) /\
    ~ inExactlyOneList "a" r.
Proof.
  intros jobs api.
  split; [apply rejectFromCall_noCallThrows|].
  assert (Hchunks : createJobBatches jobs maxJobsPerRequest =
                    [("q", [("s", [repeat "a" 10000; ["a"]])])]).
  { change jobs with (repeat (mkJob "a" "q" "s") (S 10000)).
    rewrite createJobBatches_one_group.
    change maxJobsPerRequest with (Z.of_nat 10000).
    cbn [jobId queue jobSet].
    rewrite fold_pushJobId_repeat_over; [reflexivity|].
    apply Nat.lt_0_succ. }
  pose proof (@mutationFn_normal string exampleMessage (mkConfig false) api
                jobs "" eq_refl (rejectFromCall_noCallThrows _ _ _)) as E.
  rewrite Hchunks in E.
  assert (Hin : In "a" (repeat "a" 10000)).
  { change 10000 with (S 9999). left. reflexivity. }
  set (l := repeat "a" 10000) in *. clearbody l.
  eexists. eexists. split; [exact E|]. split.
  - change jobs with (repeat (mkJob "a" "q" "s") (S 10000)).
    left. reflexivity.
  - unfold inExactlyOneList. cbn. intros [[_ H]|[H _]]; apply H.
    + left. reflexivity.
    + rewrite app_nil_r. exact Hin.
Qed.

(** * Further properties of [createJobBatches] *)

(** ** The batches of a group *)

Lemma fold_pushJobId_nonempty (batchSize : Z) (ids : list JobId)
  (bs : Batches) :
  Forall (fun b => b <> []) bs ->
  Forall (fun b => b <> []) (fold_left (pushJobId batchSize) ids bs).
Proof.
  revert bs. induction ids as [|id ids IH]; intros bs Hbs; simpl.
  - assumption.
  - apply IH. unfold pushJobId.
    destruct bs as [|b0 bs'].
    + simpl. repeat constructor. discriminate.
    + set (l := b0 :: bs') in *.
      assert (Hne : l <> []) by (subst l; discriminate).
      destruct ((length l =? 0)%nat
                || (Z.of_nat (length (last l [])) =? batchSize)%Z).
      * apply Forall_app. split; [assumption|].
        repeat constructor. discriminate.
      * rewrite <- (removelast_last_batches Hne) in Hbs.
        apply Forall_app in Hbs as [Hinit _].
        apply Forall_app. split; [assumption|].
        repeat constructor. now destruct (last l []).
Qed.

Lemma allBatches_nonempty (jobs : list Job) (batchSize : Z) :
  Forall (fun b => b <> []) (allBatches (createJobBatches jobs batchSize)).
Proof.
  apply Forall_forall. intros b Hb.
  apply In_allBatches in Hb as (q & m & js & bs & Hq & Hjs & Hb).
  rewrite (createJobBatches_In_group _ _ _ _ _ _ Hq Hjs) in Hb.
  rewrite batchesOf_createJobBatches in Hb.
  revert b Hb. apply Forall_forall.
  apply fold_pushJobId_nonempty. constructor.
Qed.

(** X1: whatever the batch size, no batch of [createJobBatches] is empty,
    so no request of the mutation is for no job. *)
Theorem createJobBatches_no_empty_batch (jobs : list Job) (batchSize : Z)
  (reason : string) :
  Forall (fun b => b <> []) (allBatches (createJobBatches jobs batchSize)) /\
  Forall (fun body => body_jobIds body <> [])
         (requestsOf (createJobBatches jobs batchSize) reason).
Proof.
  split; [apply allBatches_nonempty|].
  apply Forall_forall. intros body Hbody.
  assert (Hin : In (body_jobIds body)
                   (map body_jobIds
                      (requestsOf (createJobBatches jobs batchSize) reason)))
    by now apply in_map.
  rewrite requestsOf_jobIds in Hin.
  exact (proj1 (Forall_forall _ _) (allBatches_nonempty jobs batchSize) _ Hin).
Qed.

Lemma length_concat_full (batchSize : Z) (bs : Batches) :
  Forall (fullBatch batchSize) bs ->
  Z.of_nat (length (concat bs)) = (batchSize * Z.of_nat (length bs))%Z.
Proof.
  induction 1 as [|b bs Hb _ IH]; simpl; [lia|].
  unfold fullBatch in Hb. rewrite length_app. lia.
Qed.

Lemma pushJobId_greedy (batchSize : Z) (bs : Batches) (id : JobId) :
  (1 <= batchSize)%Z ->
  (bs <> [] ->
   Forall (fullBatch batchSize) (removelast bs) /\
   (1 <= Z.of_nat (length (last bs [])) <= batchSize)%Z) ->
  Forall (fullBatch batchSize) (removelast (pushJobId batchSize bs id)) /\
  (1 <= Z.of_nat (length (last (pushJobId batchSize bs id) []))
   <= batchSize)%Z.
Proof.
  intros Hpos Hbs. unfold pushJobId.
  destruct bs as [|b0 bs'].
  - simpl. split; [constructor|lia].
  - set (l := b0 :: bs') in *.
    assert (Hne : l <> []) by (subst l; discriminate).
    destruct (Hbs Hne) as [Hinit Hlast].
    change (length l =? 0)%nat with false. cbv beta iota delta [orb].
    destruct (Z.eqb_spec (Z.of_nat (length (last l []))) batchSize) as [E|E].
    + rewrite removelast_last, last_last. split.
      * rewrite <- (removelast_last_batches Hne).
        apply Forall_app. split; [assumption|].
        repeat constructor. exact E.
      * simpl. lia.
    + rewrite removelast_last, last_last. split; [assumption|].
      rewrite length_app. cbn [length]. lia.
Qed.

Lemma fold_pushJobId_greedy (batchSize : Z) (ids : list JobId) (bs : Batches) :
  (1 <= batchSize)%Z ->
  (bs <> [] ->
   Forall (fullBatch batchSize) (removelast bs) /\
   (1 <= Z.of_nat (length (last bs [])) <= batchSize)%Z) ->
  fold_left (pushJobId batchSize) ids bs <> [] ->
  Forall (fullBatch batchSize)
         (removelast (fold_left (pushJobId batchSize) ids bs)) /\
  (1 <= Z.of_nat (length (last (fold_left (pushJobId batchSize) ids bs) []))
   <= batchSize)%Z.
Proof.
  intros Hpos. revert bs.
  induction ids as [|id ids IH]; intros bs Hbs Hne; simpl in *.
  - now apply Hbs.
  - apply IH; [|assumption].
    intros _. now apply pushJobId_greedy.
Qed.

Lemma createJobBatches_group_nonempty (jobs : list Job) (batchSize : Z)
  (q js : string) (m : JobSetMap) (bs : Batches) :
  In (q, m) (createJobBatches jobs batchSize) ->
  In (js, bs) m ->
  groupJobIds jobs q js <> [].
Proof.
  intros Hq Hjs.
  assert (Hkey : In js (JsMap.keys m)).
  { change js with (fst (js, bs)). now apply in_map. }
  rewrite (createJobBatches_In_queue _ _ _ _ Hq), keys_jobSetMapOf in Hkey.
  apply (proj1 (firstSeen_In _ _)) in Hkey.
  apply in_map_iff in Hkey as (job & Ejs & Hjob).
  apply filter_In in Hjob as [Hjob Hqueue].
  assert (Hin : In (jobId job) (groupJobIds jobs q js)).
  { unfold groupJobIds. apply in_map. apply filter_In. split; [assumption|].
    unfold inGroup. unfold inQueue in Hqueue. rewrite Hqueue, Ejs.
    now rewrite String.eqb_refl. }
  intros E. now rewrite E in Hin.
Qed.

Lemma createJobBatches_group_batches (jobs : list Job) (batchSize : Z)
  (q js : string) (m : JobSetMap) (bs : Batches) :
  In (q, m) (createJobBatches jobs batchSize) ->
  In (js, bs) m ->
  bs = fold_left (pushJobId batchSize) (groupJobIds jobs q js) [] /\ bs <> [].
Proof.
  intros Hq Hjs.
  pose proof (createJobBatches_group_nonempty _ _ _ _ _ _ Hq Hjs) as Hne.
  pose proof (createJobBatches_group_concat _ _ _ _ _ _ Hq Hjs) as Hcat.
  rewrite (createJobBatches_In_group _ _ _ _ _ _ Hq Hjs) at 1.
  rewrite batchesOf_createJobBatches. split; [reflexivity|].
  intros E. rewrite E in Hcat. simpl in Hcat.
  apply Hne. unfold groupJobIds. now rewrite <- Hcat.
Qed.

(** X2: for a batch size that is a whole number of at least 1, in every
    group all the batches but the last hold exactly [batchSize] job IDs,
    and the last holds between 1 and [batchSize]: a batch is filled
    before the next one is started. *)
Theorem createJobBatches_fills_batches (jobs : list Job) (batchSize : Z)
  (q js : string) (m : JobSetMap) (bs : Batches) :
  (1 <= batchSize)%Z ->
  In (q, m) (createJobBatches jobs batchSize) ->
  In (js, bs) m ->
  Forall (fullBatch batchSize) (removelast bs) /\
  (1 <= Z.of_nat (length (last bs [])) <= batchSize)%Z.
Proof.
  intros Hpos Hq Hjs.
  destruct (createJobBatches_group_batches _ _ _ _ _ _ Hq Hjs) as [E Hne].
  rewrite E in *.
  apply fold_pushJobId_greedy; [assumption| |assumption].
  intros H. now contradiction H.
Qed.

Lemma createJobBatches_fills_batches_witness :
  Forall (fullBatch 2) (removelast [["a"; "d"]; ["e"]]) /\
  (1 <= Z.of_nat (length (last [["a"; "d"]; ["e"]] [])) <= 2)%Z.
Proof.
  apply (@createJobBatches_fills_batches exampleJobs 2 "q1" "s1"
           [("s1", [["a"; "d"]; ["e"]]); ("s2", [["c"]])]
           [["a"; "d"]; ["e"]]);
    [lia|vm_compute; auto|vm_compute; auto].
Defined.

(** X3: for a batch size that is a whole number of at least 1, the
    number of batches of a group is the number of its jobs divided by the
    batch size, rounded up. *)
Theorem createJobBatches_batch_count (jobs : list Job) (batchSize : Z)
  (q js : string) (m : JobSetMap) (bs : Batches) :
  (1 <= batchSize)%Z ->
  In (q, m) (createJobBatches jobs batchSize) ->
  In (js, bs) m ->
  Z.of_nat (length bs) =
  ((Z.of_nat (length (groupJobIds jobs q js)) + batchSize - 1) / batchSize)%Z.
Proof.
  intros Hpos Hq Hjs.
  destruct (createJobBatches_group_batches _ _ _ _ _ _ Hq Hjs) as [E Hne].
  assert (Hshape :
            Forall (fullBatch batchSize) (removelast bs) /\
            (1 <= Z.of_nat (length (last bs [])) <= batchSize)%Z).
  { rewrite E in *.
    apply fold_pushJobId_greedy; [assumption| |assumption].
    intros H. now contradiction H. }
  destruct Hshape as [Hinit Hlast].
  pose proof (createJobBatches_group_concat _ _ _ _ _ _ Hq Hjs) as Hcat.
  fold (groupJobIds jobs q js) in Hcat. rewrite <- Hcat.
  rewrite <- (removelast_last_batches Hne) at 2.
  rewrite concat_app, length_app, Nat2Z.inj_add.
  rewrite (length_concat_full Hinit). cbn [concat]. rewrite app_nil_r.
  assert (Hlen : Z.of_nat (length bs)
                 = (Z.of_nat (length (removelast bs)) + 1)%Z).
  { rewrite <- (removelast_last_batches Hne) at 1.
    rewrite length_app. simpl. lia. }
  rewrite Hlen.
  apply Z.div_unique with (r := (Z.of_nat (length (last bs [])) - 1)%Z);
    [left|]; lia.
Qed.

Lemma createJobBatches_batch_count_witness :
  Z.of_nat (length [["a"; "d"]; ["e"]]) =
  ((Z.of_nat (length (groupJobIds exampleJobs "q1" "s1")) + 2 - 1) / 2)%Z.
Proof.
  apply (@createJobBatches_batch_count exampleJobs 2 "q1" "s1"
           [("s1", [["a"; "d"]; ["e"]]); ("s2", [["c"]])]
           [["a"; "d"]; ["e"]]);
    [lia|vm_compute; auto|vm_compute; auto].
Defined.

Lemma fold_pushJobId_below_one (batchSize : Z) (ids b : list JobId) :
  (batchSize < 1)%Z -> b <> [] ->
  fold_left (pushJobId batchSize) ids [b] = [b ++ ids].
Proof.
  intros Hn. revert b.
  induction ids as [|id ids IH]; intros b Hb; simpl.
  - now rewrite app_nil_r.
  - unfold pushJobId at 2. cbn [length last removelast Nat.eqb orb].
    destruct b as [|x b']; [contradiction|].
    destruct (Z.eqb_spec (Z.of_nat (length (x :: b'))) batchSize) as [E|E].
    + simpl in E. lia.
    + cbn [app]. rewrite IH by discriminate.
      cbn [app]. now rewrite <- app_assoc.
Qed.

(** X4: for a batch size below 1 no batch is ever full, so every group
    has exactly one batch, which holds all the job IDs of the group in
    input order. *)
Theorem createJobBatches_batch_size_below_one (jobs : list Job)
  (batchSize : Z) (q js : string) (m : JobSetMap) (bs : Batches) :
  (batchSize < 1)%Z ->
  In (q, m) (createJobBatches jobs batchSize) ->
  In (js, bs) m ->
  bs = [groupJobIds jobs q js].
Proof.
  intros Hn Hq Hjs.
  destruct (createJobBatches_group_batches _ _ _ _ _ _ Hq Hjs) as [E _].
  pose proof (createJobBatches_group_nonempty _ _ _ _ _ _ Hq Hjs) as Hne.
  rewrite E. destruct (groupJobIds jobs q js) as [|id ids]; [contradiction|].
  simpl. unfold pushJobId at 2. simpl.
  now rewrite fold_pushJobId_below_one by (assumption || discriminate).
Qed.

Lemma createJobBatches_batch_size_below_one_witness :
  [["a"; "d"; "e"]] = [groupJobIds exampleJobs "q1" "s1"].
Proof.
  apply (@createJobBatches_batch_size_below_one exampleJobs 0 "q1" "s1"
           [("s1", [["a"; "d"; "e"]]); ("s2", [["c"]])]
           [["a"; "d"; "e"]]);
    [lia|vm_compute; auto|vm_compute; auto].
Defined.

(** ** The whole structure *)

Lemma tabulate_eq {V : Type} (m : JsMap.t V) (F : string -> V) :
  (forall k v, In (k, v) m -> v = F k) ->
  m = map (fun k => (k, F k)) (JsMap.keys m).
Proof.
  induction m as [|[k v] m IH]; intros H; simpl; [reflexivity|].
  rewrite <- IH.
  - now rewrite <- (H k v (or_introl eq_refl)).
  - intros k' v' Hin. apply H. now right.
Qed.

Lemma get_tabulate {V : Type} (F : string -> V) (ks : list string)
  (k : string) :
  JsMap.get (map (fun k => (k, F k)) ks) k =
  if in_dec string_dec k ks then Some (F k) else None.
Proof.
  induction ks as [|k0 ks IH]; simpl; [reflexivity|].
  destruct (String.eqb_spec k0 k) as [->|Hne].
  - destruct (string_dec k k); [reflexivity|contradiction].
  - rewrite IH. destruct (string_dec k0 k); [contradiction|].
    now destruct (in_dec string_dec k ks).
Qed.

Lemma filter_none {A : Type} (f : A -> bool) (l : list A) :
  (forall x, In x l -> f x = false) -> filter f l = [].
Proof.
  induction l as [|a l IH]; intros H; simpl; [reflexivity|].
  rewrite (H a (or_introl eq_refl)). apply IH.
  intros x Hx. apply H. now right.
Qed.

Lemma filter_all {A : Type} (f : A -> bool) (l : list A) :
  (forall x, In x l -> f x = true) -> filter f l = l.
Proof.
  induction l as [|a l IH]; intros H; simpl; [reflexivity|].
  rewrite (H a (or_introl eq_refl)). f_equal. apply IH.
  intros x Hx. apply H. now right.
Qed.

Lemma firstSeen_one (l : list string) (a : string) :
  l <> [] -> (forall x, In x l -> x = a) -> firstSeen l = [a].
Proof.
  destruct l as [|x l]; [contradiction|]. intros _ H. simpl.
  rewrite (H x (or_introl eq_refl)). f_equal.
  apply filter_none. intros y Hy.
  apply (proj1 (firstSeen_In _ _)) in Hy.
  rewrite (H y (or_intror Hy)). now rewrite String.eqb_refl.
Qed.

Lemma flat_map_of_map {A B C : Type} (f : B -> list C) (g : A -> B)
  (l : list A) :
  flat_map f (map g l) = flat_map (fun x => f (g x)) l.
Proof.
  induction l as [|a l IH]; simpl; [reflexivity|]. now rewrite IH.
Qed.

Lemma createJobBatches_grouped_eq (jobs : list Job) (batchSize : Z) :
  createJobBatches jobs batchSize = groupedBatches jobs batchSize.
Proof.
  unfold groupedBatches. rewrite <- keys_createJobBatches with (batchSize := batchSize).
  apply tabulate_eq. intros q m Hq.
  unfold jobSetsOf. rewrite <- keys_jobSetMapOf with (batchSize := batchSize).
  rewrite <- (createJobBatches_In_queue _ _ _ _ Hq).
  apply tabulate_eq. intros js bs Hjs.
  apply (createJobBatches_group_batches _ _ _ _ _ _ Hq Hjs).
Qed.

(** X5: [createJobBatches] groups: its result is, for the queues in the
    order of first occurrence and for the job-sets of each queue in the
    order of first occurrence among the jobs of that queue, the batches
    made of the job IDs of that queue and job-set taken in input order. *)
Theorem createJobBatches_grouped (jobs : list Job) (batchSize : Z) :
  createJobBatches jobs batchSize = groupedBatches jobs batchSize /\
  allJobIds (createJobBatches jobs batchSize) = groupedJobIds jobs.
Proof.
  split; [apply createJobBatches_grouped_eq|].
  rewrite createJobBatches_grouped_eq.
  rewrite allJobIds_content. unfold groupedBatches, groupedJobIds, content.
  rewrite flat_map_of_map. apply flat_map_ext. intros q. simpl.
  rewrite jobIdsOfJobSetMap_content. unfold content.
  rewrite flat_map_of_map. apply flat_map_ext. intros js. simpl.
  now rewrite concat_fold_pushJobId.
Qed.

Lemma allJobIds_grouped (jobs : list Job) (batchSize : Z) :
  allJobIds (createJobBatches jobs batchSize) = groupedJobIds jobs.
Proof.
  rewrite createJobBatches_grouped_eq.
  rewrite allJobIds_content. unfold groupedBatches, groupedJobIds, content.
  rewrite flat_map_of_map. apply flat_map_ext. intros q. simpl.
  rewrite jobIdsOfJobSetMap_content. unfold content.
  rewrite flat_map_of_map. apply flat_map_ext. intros js. simpl.
  now rewrite concat_fold_pushJobId.
Qed.

Lemma inGroup_exists (jobs : list Job) (q js : string) :
  existsb (inGroup q js) jobs = true <->
  In q (firstSeen (map queue jobs)) /\ In js (jobSetsOf jobs q).
Proof.
  unfold jobSetsOf. rewrite existsb_exists, !firstSeen_In, !in_map_iff. split.
  - intros (job & Hjob & Hgrp). unfold inGroup in Hgrp.
    apply andb_true_iff in Hgrp as [Eq Ejs].
    apply String.eqb_eq in Eq. apply String.eqb_eq in Ejs. split.
    + now exists job.
    + exists job. split; [assumption|]. apply filter_In.
      split; [assumption|]. unfold inQueue. rewrite Eq.
      apply String.eqb_refl.
  - intros [_ (job & Ejs & Hjob)]. apply filter_In in Hjob as [Hjob Hq].
    exists job. split; [assumption|]. unfold inGroup.
    unfold inQueue in Hq. rewrite Hq, Ejs. now rewrite String.eqb_refl.
Qed.

(** X6: looking up a queue and a job-set in the result of
    [createJobBatches] finds nothing exactly when no job of the input has
    that queue and job-set, and otherwise finds the batches made of the
    job IDs of these jobs. *)
Theorem createJobBatches_lookup (jobs : list Job) (batchSize : Z)
  (q js : string) :
  getBatches (createJobBatches jobs batchSize) q js =
  if existsb (inGroup q js) jobs
  then Some (fold_left (pushJobId batchSize) (groupJobIds jobs q js) [])
  else None.
Proof.
  rewrite createJobBatches_grouped_eq. unfold getBatches, groupedBatches.
  rewrite get_tabulate.
  destruct (in_dec string_dec q (firstSeen (map queue jobs))) as [Hq|Hq].
  - rewrite get_tabulate.
    destruct (in_dec string_dec js (jobSetsOf jobs q)) as [Hjs|Hjs].
    + now rewrite (proj2 (inGroup_exists jobs q js) (conj Hq Hjs)).
    + destruct (existsb (inGroup q js) jobs) eqn:E; [|reflexivity].
      apply inGroup_exists in E. tauto.
  - destruct (existsb (inGroup q js) jobs) eqn:E; [|reflexivity].
    apply inGroup_exists in E. tauto.
Qed.

(** X7: no queue is twice in the result of [createJobBatches], no job-set
    is twice under a queue, every queue has a job-set and every job-set
    has a batch. *)
Theorem createJobBatches_well_formed (jobs : list Job) (batchSize : Z) :
  NoDup (JsMap.keys (createJobBatches jobs batchSize)) /\
  (forall q m,
      In (q, m) (createJobBatches jobs batchSize) ->
      m <> [] /\ NoDup (JsMap.keys m) /\
      (forall js bs, In (js, bs) m -> bs <> [])).
Proof.
  split.
  - rewrite keys_createJobBatches. apply firstSeen_NoDup.
  - intros q m Hq.
    pose proof (createJobBatches_In_queue _ _ _ _ Hq) as Em.
    assert (Hkeys : JsMap.keys m = jobSetsOf jobs q).
    { rewrite Em. apply keys_jobSetMapOf. }
    split; [|split].
    + assert (Hkey : In q (JsMap.keys (createJobBatches jobs batchSize))).
      { change q with (fst (q, m)). now apply in_map. }
      rewrite keys_createJobBatches in Hkey.
      apply (proj1 (firstSeen_In _ _)) in Hkey.
      apply in_map_iff in Hkey as (job & Eq & Hjob).
      intros E. rewrite E in Hkeys. simpl in Hkeys.
      assert (Hin : In (jobSet job) (jobSetsOf jobs q)).
      { unfold jobSetsOf. apply firstSeen_In. apply in_map.
        apply filter_In. split; [assumption|]. unfold inQueue.
        rewrite Eq. apply String.eqb_refl. }
      now rewrite <- Hkeys in Hin.
    + rewrite Hkeys. apply firstSeen_NoDup.
    + intros js bs Hjs.
      apply (createJobBatches_group_batches _ _ _ _ _ _ Hq Hjs).
Qed.

Lemma createJobBatches_well_formed_witness :
  [("s1", [["a"; "d"]; ["e"]]); ("s2", [["c"]])] <> [] /\
  NoDup (JsMap.keys [("s1", [["a"; "d"]; ["e"]]); ("s2", [["c"]])]) /\
  [["a"; "d"]; ["e"]] <> [].
Proof.
  destruct (proj2 (createJobBatches_well_formed exampleJobs 2) "q1"
              [("s1", [["a"; "d"]; ["e"]]); ("s2", [["c"]])])
    as (Hne & Hnd & Hbs); [vm_compute; auto|].
  split; [exact Hne|]. split; [exact Hnd|].
  apply (Hbs "s1"). vm_compute. auto.
Defined.

(** X8: the batches of a group are those that [createJobBatches] makes of
    the jobs of that group alone: the jobs of the other groups, wherever
    they stand in the input, change nothing to them. *)
Theorem createJobBatches_group_alone (jobs : list Job) (batchSize : Z)
  (q js : string) :
  existsb (inGroup q js) jobs = true ->
  createJobBatches (filter (inGroup q js) jobs) batchSize =
  [(q, [(js, batchesOf (createJobBatches jobs batchSize) q js)])].
Proof.
  intros Hex.
  assert (Hne : filter (inGroup q js) jobs <> []).
  { apply existsb_exists in Hex as (job & Hjob & Hgrp).
    intros E.
    assert (Hin : In job (filter (inGroup q js) jobs))
      by (apply filter_In; auto).
    now rewrite E in Hin. }
  assert (Hgrp : forall job, In job (filter (inGroup q js) jobs) ->
                             queue job = q /\ jobSet job = js).
  { intros job Hjob. apply filter_In in Hjob as [_ H].
    unfold inGroup in H. apply andb_true_iff in H as [Eq Ejs].
    apply String.eqb_eq in Eq. apply String.eqb_eq in Ejs. auto. }
  assert (Hq : filter (inQueue q) (filter (inGroup q js) jobs)
               = filter (inGroup q js) jobs).
  { apply filter_all. intros job Hjob. unfold inQueue.
    rewrite (proj1 (Hgrp job Hjob)). apply String.eqb_refl. }
  assert (Hg : filter (inGroup q js) (filter (inGroup q js) jobs)
               = filter (inGroup q js) jobs).
  { apply filter_all. intros job Hjob. now apply filter_In in Hjob. }
  rewrite createJobBatches_grouped_eq. unfold groupedBatches.
  rewrite (firstSeen_one (a := q)).
  - simpl. unfold jobSetsOf. rewrite Hq.
    rewrite (firstSeen_one (a := js)).
    + simpl. unfold groupJobIds. rewrite Hg.
      now rewrite batchesOf_createJobBatches.
    + intros E. apply map_eq_nil in E. contradiction.
    + intros x Hx. apply in_map_iff in Hx as (job & <- & Hjob).
      apply (Hgrp job Hjob).
  - intros E. apply map_eq_nil in E. contradiction.
  - intros x Hx. apply in_map_iff in Hx as (job & <- & Hjob).
    apply (Hgrp job Hjob).
Qed.

Lemma createJobBatches_group_alone_witness :
  createJobBatches (filter (inGroup "q1" "s1") exampleJobs) 2 =
  [("q1", [("s1", batchesOf (createJobBatches exampleJobs 2) "q1" "s1")])].
Proof.
  apply (createJobBatches_group_alone exampleJobs 2 "q1" "s1").
  reflexivity.
Defined.

(** * Further properties of the mutation *)

Lemma length_le_concat {A : Type} (l : list (list A)) :
  Forall (fun b => b <> []) l -> length l <= length (concat l).
Proof.
  induction 1 as [|b l Hb _ IH]; simpl; [lia|].
  rewrite length_app. destruct b; [contradiction|]. simpl. lia.
Qed.

Lemma flat_map_all_nil {A B : Type} (f : A -> list B) (l : list A) :
  (forall a, In a l -> f a = []) -> flat_map f l = [].
Proof.
  induction l as [|a l IH]; intros H; simpl; [reflexivity|].
  rewrite (H a (or_introl eq_refl)). apply IH.
  intros x Hx. apply H. now right.
Qed.

Lemma groupedJobIds_one_group (jobs : list Job) (q js : string) :
  (forall job, In job jobs -> queue job = q /\ jobSet job = js) ->
  groupedJobIds jobs = map jobId jobs.
Proof.
  intros Hgrp. destruct jobs as [|job0 jobs']; [reflexivity|].
  set (jobs := job0 :: jobs') in *.
  assert (Hne : jobs <> []) by (subst jobs; discriminate).
  assert (Hq : filter (inQueue q) jobs = jobs).
  { apply filter_all. intros job Hjob. unfold inQueue.
    rewrite (proj1 (Hgrp job Hjob)). apply String.eqb_refl. }
  assert (Hg : filter (inGroup q js) jobs = jobs).
  { apply filter_all. intros job Hjob. unfold inGroup.
    destruct (Hgrp job Hjob) as [-> ->]. now rewrite !String.eqb_refl. }
  unfold groupedJobIds. rewrite (firstSeen_one (a := q)).
  - cbn [flat_map]. unfold jobSetsOf. rewrite Hq.
    rewrite (firstSeen_one (a := js)).
    + cbn [flat_map]. unfold groupJobIds. rewrite Hg.
      now rewrite !app_nil_r.
    + intros E. apply map_eq_nil in E. contradiction.
    + intros x Hx. apply in_map_iff in Hx as (job & <- & Hjob).
      apply (Hgrp job Hjob).
  - intros E. apply map_eq_nil in E. contradiction.
  - intros x Hx. apply in_map_iff in Hx as (job & <- & Hjob).
    apply (Hgrp job Hjob).
Qed.

Section MoreAggregation.

Variable Err : Type.
Variable getErrorMessage : Err -> string.
Variable submitApi : nat -> PreemptJobsBody -> CallOutcome Err.

Lemma successes_indexed (requests : list PreemptJobsBody) (n : nat) :
  flat_map (@successesOf Err) (promisesFrom submitApi n requests) =
  flat_map (successReport submitApi)
           (combine (seq n (length requests)) requests).
Proof.
  revert n. induction requests as [|b requests IH]; intros n; simpl.
  - reflexivity.
  - rewrite IH. f_equal.
    unfold successesOf, successReport. simpl.
    destruct (submitApi n b) as [e|[|e]]; reflexivity.
Qed.

Lemma failures_indexed (requests : list PreemptJobsBody) (n : nat) :
  (forall i body, nth_error requests i = Some body ->
                  exists p, submitApi (n + i) body = Returns p) ->
  flat_map (failuresOf getErrorMessage) (promisesFrom submitApi n requests) =
  flat_map (failureReport getErrorMessage submitApi)
           (combine (seq n (length requests)) requests).
Proof.
  revert n. induction requests as [|b requests IH]; intros n H; simpl.
  - reflexivity.
  - rewrite IH.
    + f_equal. unfold failuresOf, failureReport. simpl.
      destruct (H 0 b eq_refl) as [p Hp]. rewrite Nat.add_0_r in Hp.
      rewrite Hp. now destruct p.
    + intros i body Hi. rewrite Nat.add_succ_l, <- Nat.add_succ_r.
      now apply H.
Qed.

(** The first call that throws, when one does. *)
Lemma first_throw (requests : list PreemptJobsBody) (n : nat) :
  (forall i body, nth_error requests i = Some body ->
                  exists p, submitApi (n + i) body = Returns p) \/
  (exists pre b post e,
      requests = pre ++ b :: post /\
      (forall i body, nth_error pre i = Some body ->
                      exists p, submitApi (n + i) body = Returns p) /\
      submitApi (n + length pre) b = Throws e).
Proof.
  revert n. induction requests as [|b requests IH]; intros n.
  - left. intros i body H. now destruct i.
  - destruct (submitApi n b) as [e|p] eqn:Eb.
    + right. exists [], b, requests, e. split; [reflexivity|]. split.
      * intros i body H. now destruct i.
      * simpl. now rewrite Nat.add_0_r.
    + destruct (IH (S n)) as [Hall|(pre & b' & post & e & E & Hpre & Hb)].
      * left. intros [|i] body H; simpl in H.
        -- injection H as <-. rewrite Nat.add_0_r. now exists p.
        -- rewrite Nat.add_succ_r. now apply Hall.
      * right. exists (b :: pre), b', post, e. split; [now rewrite E|].
        split.
        -- intros [|i] body H; simpl in H.
           ++ injection H as <-. rewrite Nat.add_0_r. now exists p.
           ++ rewrite Nat.add_succ_r. now apply Hpre.
        -- simpl. rewrite Nat.add_succ_r. exact Hb.
Qed.

End MoreAggregation.

Section MoreProperties.

Variable Err : Type.
Variable getErrorMessage : Err -> string.
Variable config : Config.
Variable submitApi : nat -> PreemptJobsBody -> CallOutcome Err.

Local Abbreviation mutation := (mutationFn getErrorMessage config submitApi).
Local Abbreviation requestsFor jobs reason :=
  (requestsOf (createJobBatches jobs maxJobsPerRequest) reason).

(** X9: with fake-data mode disabled and no call throwing, the two lists
    of the response follow the order of the requests: the successful job
    IDs are the job IDs of the requests that succeed, request after
    request, and the failed entries are those of the requests that fail,
    request after request, each batch in its own order. *)
Theorem mutation_response_order (jobs : list Job) (reason : string) :
  fakeDataEnabled config = false ->
  noCallThrows submitApi (requestsFor jobs reason) ->
  mutation jobs reason [] =
  (Normal
     (mkResponse
        (flat_map (successReport submitApi)
                  (indexed (requestsFor jobs reason)))
        (flat_map (failureReport getErrorMessage submitApi)
                  (indexed (requestsFor jobs reason)))),
   requestsFor jobs reason).
Proof.
  intros Hfake Hno. rewrite mutationFn_normal by assumption.
  unfold indexed. rewrite successes_indexed.
  rewrite failures_indexed by exact Hno. reflexivity.
Qed.

(** X10: with fake-data mode disabled, when a call throws and none before
    it does, the mutation throws the message of that error, and the calls
    made are the requests up to that one: no later request is made and
    no promise is awaited. *)
Theorem mutation_first_throw (jobs : list Job) (reason : string)
  (pre post : list PreemptJobsBody) (b : PreemptJobsBody) (e : Err) :
  fakeDataEnabled config = false ->
  requestsFor jobs reason = pre ++ b :: post ->
  noCallThrows submitApi pre ->
  submitApi (length pre) b = Throws e ->
  mutation jobs reason [] = (Throw (getErrorMessage e), pre ++ [b]).
Proof.
  intros Hfake E Hpre Hb. unfold mutationFn, tryCatch.
  rewrite Hfake.
  rewrite (@tryBlock_throws _ getErrorMessage submitApi jobs reason _ _ _ _ E Hpre Hb).
  reflexivity.
Qed.

(** X11: with fake-data mode disabled, the mutation returns a response
    exactly when no call throws; a rejected promise never makes it
    throw. *)
Theorem mutation_returns_iff (jobs : list Job) (reason : string) :
  fakeDataEnabled config = false ->
  (exists r calls, mutation jobs reason [] = (Normal r, calls)) <->
  noCallThrows submitApi (requestsFor jobs reason).
Proof.
  intros Hfake. split.
  - intros (r & calls & Hrun).
    destruct (first_throw submitApi (requestsFor jobs reason) 0)
      as [Hall|(pre & b & post & e & E & Hpre & Hb)]; [exact Hall|].
    unfold mutationFn, tryCatch in Hrun. rewrite Hfake in Hrun.
    rewrite (@tryBlock_throws _ getErrorMessage submitApi jobs reason _ _ _ _ E Hpre Hb)
      in Hrun.
    discriminate.
  - intros Hno. eexists. eexists. now apply mutationFn_normal.
Qed.

(** X12: with fake-data mode disabled, when every request fails the
    successful list is empty and the failed list holds the submitted job
    IDs, each as often as the input has it. *)
Theorem mutation_all_fail (jobs : list Job) (reason : string) :
  fakeDataEnabled config = false ->
  (forall i body,
      nth_error (requestsFor jobs reason) i = Some body ->
      exists e, requestFails submitApi i body e) ->
  exists r,
    mutation jobs reason [] = (Normal r, requestsFor jobs reason) /\
    successfulJobIds r = [] /\
    Permutation (map failed_jobId (failedJobIds r)) (map jobId jobs).
Proof.
  intros Hfake Hfail.
  assert (Hno : noCallThrows submitApi (requestsFor jobs reason)).
  { intros i body Hi. destruct (Hfail i body Hi) as [e He].
    now exists (Rejected e). }
  assert (Hs : flat_map (@successesOf Err)
                 (promisesFrom submitApi 0 (requestsFor jobs reason)) = []).
  { apply flat_map_all_nil. intros a Ha.
    apply In_promisesFrom in Ha as (i & body & Hi & ->).
    destruct (Hfail i body Hi) as [e He]. unfold requestFails in He.
    unfold successesOf. simpl. now rewrite He. }
  eexists. split; [now apply mutationFn_normal|]. simpl.
  split; [exact Hs|].
  pose proof (@reported_input _ getErrorMessage submitApi jobs reason)
    as Hperm.
  now rewrite Hs in Hperm.
Qed.

(** X13: with fake-data mode disabled, when every request succeeds the
    successful list holds the job IDs of the input group after group:
    the queues in the order of first occurrence, the job-sets of a queue
    in the order of first occurrence, the jobs of a group in input
    order. *)
Theorem mutation_all_success_order (jobs : list Job) (reason : string) :
  fakeDataEnabled config = false ->
  (forall i body,
      nth_error (requestsFor jobs reason) i = Some body ->
      requestSucceeds submitApi i body) ->
  mutation jobs reason [] =
  (Normal (mkResponse (groupedJobIds jobs) []), requestsFor jobs reason).
Proof.
  intros Hfake Hok.
  assert (Hno : noCallThrows submitApi (requestsFor jobs reason)).
  { intros i body Hi. exists Fulfilled. now apply Hok. }
  assert (Hall : Forall (fun a => promise a = Fulfilled)
                   (promisesFrom submitApi 0 (requestsFor jobs reason))).
  { apply Forall_forall. intros a Ha.
    apply In_promisesFrom in Ha as (i & body & Hi & ->). simpl.
    unfold requestSucceeds in Hok. now rewrite (Hok i body Hi). }
  destruct (all_fulfilled getErrorMessage Hall) as [Es Ef].
  rewrite mutationFn_normal by assumption.
  rewrite Es, Ef, promisesFrom_jobIds, requestsOf_jobIds.
  fold (allJobIds (createJobBatches jobs maxJobsPerRequest)).
  now rewrite allJobIds_grouped.
Qed.

(** X15: whatever the configuration and the API do, the mutation makes at
    most one call for each job, and with no job it makes none. *)
Theorem mutation_calls_bound (jobs : list Job) (reason : string) :
  length (snd (mutation jobs reason [])) <= length jobs.
Proof.
  assert (Hreq : length (requestsFor jobs reason) <= length jobs).
  { rewrite <- (length_map body_jobIds), requestsOf_jobIds.
    rewrite <- (length_map jobId jobs).
    rewrite <- (Permutation_length
                  (allJobIds_createJobBatches jobs maxJobsPerRequest)).
    apply length_le_concat. apply allBatches_nonempty. }
  unfold mutationFn. destruct (fakeDataEnabled config).
  - simpl. lia.
  - rewrite tryCatch_throw_calls.
    destruct (@tryBlock_calls _ getErrorMessage submitApi jobs reason)
      as [rest E].
    rewrite E, length_app in Hreq. lia.
Qed.

End MoreProperties.

(** X14: when all the jobs are of one queue and one job-set and every
    request succeeds, the mutation returns with fake-data mode disabled
    the response that it returns in fake-data mode: the job IDs in input
    order. *)
Theorem mutation_one_group_as_fake {Err : Type}
  (getErrorMessage : Err -> string)
  (submitApi : nat -> PreemptJobsBody -> CallOutcome Err)
  (jobs : list Job) (reason q js : string) :
  (forall job, In job jobs -> queue job = q /\ jobSet job = js) ->
  (forall i body,
      nth_error (requestsOf (createJobBatches jobs maxJobsPerRequest) reason) i
        = Some body ->
      requestSucceeds submitApi i body) ->
  fst (mutationFn getErrorMessage (mkConfig false) submitApi jobs reason []) =
  fst (mutationFn getErrorMessage (mkConfig true) submitApi jobs reason []).
Proof.
  intros Hgrp Hok.
  assert (Hno : noCallThrows submitApi
                  (requestsOf (createJobBatches jobs maxJobsPerRequest) reason)).
  { intros i body Hi. exists Fulfilled. now apply Hok. }
  assert (Hall : Forall (fun a => promise a = Fulfilled)
                   (promisesFrom submitApi 0
                      (requestsOf (createJobBatches jobs maxJobsPerRequest)
                                  reason))).
  { apply Forall_forall. intros a Ha.
    apply In_promisesFrom in Ha as (i & body & Hi & ->). simpl.
    unfold requestSucceeds in Hok. now rewrite (Hok i body Hi). }
  destruct (all_fulfilled getErrorMessage Hall) as [Es Ef].
  rewrite (@mutationFn_normal _ getErrorMessage (mkConfig false) submitApi
             jobs reason eq_refl Hno).
  rewrite Es, Ef, promisesFrom_jobIds, requestsOf_jobIds.
  fold (allJobIds (createJobBatches jobs maxJobsPerRequest)).
  rewrite allJobIds_grouped, (groupedJobIds_one_group jobs Hgrp).
  reflexivity.
Qed.

(** ** Runs of the mutation *)

(** The first request fails, the two after it succeed. *)
Lemma mutation_response_order_witness :
  mutationFn exampleMessage (mkConfig false) (rejectQueue "q2" "boom")
             exampleJobs "why" [] =
  (Normal (mkResponse ["a"; "d"; "e"; "c"] [mkFailed "b" "Error: boom"]),
   requestsOf (createJobBatches exampleJobs maxJobsPerRequest) "why").
Proof.
  rewrite (@mutation_response_order string exampleMessage (mkConfig false)
             (rejectQueue "q2" "boom") exampleJobs "why" eq_refl
             (rejectQueue_noCallThrows _ _ _)).
  reflexivity.
Defined.

(** The second call throws: the third request is not made. *)
Lemma mutation_first_throw_witness :
  mutationFn exampleMessage (mkConfig false) (throwAtCall 1 "bang")
             exampleJobs "why" [] =
  (Throw "Error: bang",
   [mkBody ["a"; "d"; "e"] "q1" "s1" "why"]
     ++ [mkBody ["c"] "q1" "s2" "why"]).
Proof.
  apply (@mutation_first_throw string exampleMessage (mkConfig false)
           (throwAtCall 1 "bang") exampleJobs "why"
           [mkBody ["a"; "d"; "e"] "q1" "s1" "why"]
           [mkBody ["b"] "q2" "s1" "why"]
           (mkBody ["c"] "q1" "s2" "why") "bang" eq_refl eq_refl).
  - intros [|[|i]] body H; simpl in H; try discriminate.
    now exists Fulfilled.
  - reflexivity.
Defined.

(** A run with a rejected promise returns a response. *)
Lemma mutation_returns_iff_witness :
  exists r calls,
    mutationFn exampleMessage (mkConfig false) (rejectQueue "q2" "boom")
               exampleJobs "why" [] = (Normal r, calls).
Proof.
  apply (proj2 (@mutation_returns_iff string exampleMessage (mkConfig false)
                  (rejectQueue "q2" "boom") exampleJobs "why" eq_refl)).
  apply rejectQueue_noCallThrows.
Defined.

(** Every request fails. *)
Lemma mutation_all_fail_witness :
  exists r,
    mutationFn exampleMessage (mkConfig false) (rejectFromCall 0 "boom")
               exampleJobs "why" [] =
    (Normal r, requestsOf (createJobBatches exampleJobs maxJobsPerRequest) "why")
    /\ successfulJobIds r = []
    /\ Permutation (map failed_jobId (failedJobIds r))
                   (map jobId exampleJobs).
Proof.
  apply (@mutation_all_fail string exampleMessage (mkConfig false)
           (rejectFromCall 0 "boom") exampleJobs "why" eq_refl).
  intros i body _. now exists "boom".
Defined.

(** Every request succeeds: job [b], of the second queue, comes last. *)
Lemma mutation_all_success_order_witness :
  mutationFn exampleMessage (mkConfig false) allSucceed exampleJobs "why" [] =
  (Normal (mkResponse (groupedJobIds exampleJobs) []),
   requestsOf (createJobBatches exampleJobs maxJobsPerRequest) "why")
  /\ groupedJobIds exampleJobs = ["a"; "d"; "e"; "c"; "b"].
Proof.
  split; [|reflexivity].
  apply (@mutation_all_success_order string exampleMessage (mkConfig false)
           allSucceed exampleJobs "why" eq_refl).
  intros i body _. reflexivity.
Defined.

(** Two jobs of one queue and job-set. *)
Lemma mutation_one_group_as_fake_witness :
  fst (mutationFn exampleMessage (mkConfig false) allSucceed
                  [mkJob "a" "q" "s"; mkJob "b" "q" "s"] "why" []) =
  fst (mutationFn exampleMessage (mkConfig true) allSucceed
                  [mkJob "a" "q" "s"; mkJob "b" "q" "s"] "why" []).
Proof.
  apply (@mutation_one_group_as_fake string exampleMessage allSucceed
           [mkJob "a" "q" "s"; mkJob "b" "q" "s"] "why" "q" "s").
  - intros job [<-|[<-|[]]]; split; reflexivity.
  - intros i body _. reflexivity.
Defined.

(** * Properties of the dialog *)

Lemma find_app_last {A : Type} (f : A -> bool) (l : list A) (x : A) :
  find f (x :: l) = if f x then Some x else find f l.
Proof. reflexivity. Qed.

Lemma get_fold_assign {A : Type} (key val : A -> string) (l : list A)
  (st : JsMap.t string) (k : string) :
  JsMap.get
    (fold_left
       (fun st x => PreemptionDialog.assignProperty st (key x) (val x)) l st)
    k =
  if String.eqb k "__proto__" then JsMap.get st k
  else match find (fun x => String.eqb (key x) k) (rev l) with
       | Some x => Some (val x)
       | None => JsMap.get st k
       end.
Proof.
  induction l as [|x l IH] using rev_ind.
  - simpl. now destruct (String.eqb k "__proto__").
  - rewrite fold_left_app, rev_app_distr. cbn [fold_left rev app].
    rewrite find_app_last. unfold PreemptionDialog.assignProperty at 1.
    destruct (String.eqb_spec (key x) "__proto__") as [Ep|Hnp].
    + rewrite IH.
      destruct (String.eqb_spec k "__proto__") as [Ek|Hk]; [reflexivity|].
      destruct (String.eqb_spec (key x) k) as [E|_]; [congruence|].
      reflexivity.
    + destruct (String.eqb_spec (key x) k) as [E|Hne].
      * rewrite E, JsMapFacts.get_set_same.
        destruct (String.eqb_spec k "__proto__") as [Ek|Hk]; [congruence|].
        reflexivity.
      * rewrite JsMapFacts.get_set_other by assumption. apply IH.
Qed.

Lemma find_id (l : list string) (k : string) :
  find (fun x => String.eqb x k) l =
  if existsb (String.eqb k) l then Some k else None.
Proof.
  induction l as [|x l IH]; simpl; [reflexivity|].
  rewrite (String.eqb_sym k x).
  destruct (String.eqb_spec x k) as [->|Hne]; [reflexivity|apply IH].
Qed.

Lemma existsb_rev (l : list string) (k : string) :
  existsb (String.eqb k) (rev l) = existsb (String.eqb k) l.
Proof.
  apply eq_true_iff_eq. rewrite !existsb_eqb_In. symmetry. apply in_rev.
Qed.

Lemma NoDup_map_eq {A B : Type} (g : A -> B) (l : list A) (a b : A) :
  NoDup (map g l) -> In a l -> In b l -> g a = g b -> a = b.
Proof.
  induction l as [|x l IH]; simpl; [tauto|].
  intros Hnd Ha Hb E. inversion Hnd as [|? ? Hnotin Hnd']; subst.
  destruct Ha as [->|Ha], Hb as [->|Hb].
  - reflexivity.
  - exfalso. apply Hnotin. rewrite E. now apply in_map.
  - exfalso. apply Hnotin. rewrite <- E. now apply in_map.
  - now apply IH.
Qed.



Module PreemptionDialogFacts.
Import PreemptionDialog.

Lemma recordResponses_get (statuses : Statuses)
  (response : UpdateJobsResponse) (id : JobId) :
  JsMap.get (recordResponses statuses response) id =
  if String.eqb id "__proto__" then JsMap.get statuses id
  else match lastFailure id (failedJobIds response) with
       | Some failed => Some (errorReason failed)
       | None =>
           if existsb (String.eqb id) (successfulJobIds response)
           then Some "Success"
           else JsMap.get statuses id
       end.
Proof.
  unfold recordResponses, lastFailure.
  rewrite (get_fold_assign failed_jobId errorReason).
  rewrite (get_fold_assign (fun x : JobId => x) (fun _ => "Success")).
  destruct (String.eqb id "__proto__"); [reflexivity|].
  destruct (find _ (rev (failedJobIds response))); [reflexivity|].
  rewrite find_id, existsb_rev.
  now destruct (existsb (String.eqb id) (successfulJobIds response)).
Qed.

(** X16: after [preemptJobs] has recorded a response, the own property
    of the statuses for a job ID other than [__proto__] is the error
    reason of its last failed entry when it has one, even when it is in
    the successful list too; else it is [Success] when it is in the
    successful list; else it is what it was.  For [__proto__] the
    assignments make no own property: it is what it was. *)
Theorem recordResponses_lookup (statuses : Statuses)
  (response : UpdateJobsResponse) (id : JobId) :
  JsMap.get (recordResponses statuses response) id =
  if String.eqb id "__proto__" then JsMap.get statuses id
  else match lastFailure id (failedJobIds response) with
       | Some failed => Some (errorReason failed)
       | None =>
           if existsb (String.eqb id) (successfulJobIds response)
           then Some "Success"
           else JsMap.get statuses id
       end.
Proof.
  unfold recordResponses, lastFailure.
  rewrite (get_fold_assign failed_jobId errorReason).
  rewrite (get_fold_assign (fun x : JobId => x) (fun _ => "Success")).
  destruct (String.eqb_spec id "__proto__") as [Ep|Hnp].
  - reflexivity.
  - destruct (find _ (rev (failedJobIds response))) as [failed|].
    + reflexivity.
    + rewrite find_id, existsb_rev.
      destruct (existsb (String.eqb id) (successfulJobIds response));
        reflexivity.
Qed.

Section Composition.

Variable Err : Type.
Variable getErrorMessage : Err -> string.
Variable submitApi : nat -> PreemptJobsBody -> CallOutcome Err.

Local Abbreviation mutate :=
  (mutateAsyncOf getErrorMessage (mkConfig false) submitApi).
Local Abbreviation requestsFor jobs reason :=
  (requestsOf (createJobBatches jobs maxJobsPerRequest) reason).
Local Abbreviation promises jobs reason :=
  (promisesFrom submitApi 0 (requestsFor jobs reason)).

Lemma mutate_normal (jobs : list Job) (rsn : string) :
  noCallThrows submitApi (requestsFor jobs rsn) ->
  mutate jobs rsn =
  Normal (mkResponse
            (flat_map (@successesOf Err) (promises jobs rsn))
            (flat_map (failuresOf getErrorMessage) (promises jobs rsn))).
Proof.
  intros Hno. unfold mutateAsyncOf.
  now rewrite (@mutationFn_normal _ getErrorMessage (mkConfig false)
                 submitApi jobs rsn eq_refl Hno).
Qed.

Lemma success_entry (requests : list PreemptJobsBody) (i : nat)
  (body : PreemptJobsBody) (id : JobId) :
  nth_error requests i = Some body ->
  requestSucceeds submitApi i body ->
  In id (body_jobIds body) ->
  In id (flat_map (@successesOf Err) (promisesFrom submitApi 0 requests)).
Proof.
  intros Hi Hok Hid. apply in_flat_map.
  exists (mkApiResponsePromise Fulfilled (body_jobIds body)). split.
  - apply In_promisesFrom. exists i, body. split; [assumption|].
    simpl. unfold requestSucceeds in Hok. now rewrite Hok.
  - exact Hid.
Qed.

Lemma failure_entry (requests : list PreemptJobsBody) (i : nat)
  (body : PreemptJobsBody) (e : Err) (id : JobId) :
  nth_error requests i = Some body ->
  requestFails submitApi i body e ->
  In id (body_jobIds body) ->
  In (mkFailed id (getErrorMessage e))
     (flat_map (failuresOf getErrorMessage)
               (promisesFrom submitApi 0 requests)).
Proof.
  intros Hi Hfail Hid. apply in_flat_map.
  exists (mkApiResponsePromise (Rejected e) (body_jobIds body)). split.
  - apply In_promisesFrom. exists i, body. split; [assumption|].
    simpl. unfold requestFails in Hfail. now rewrite Hfail.
  - unfold failuresOf. simpl.
    now apply (in_map (fun id => mkFailed id (getErrorMessage e))).
Qed.

Lemma request_has_job (jobs : list Job) (rsn : string) (i : nat)
  (body : PreemptJobsBody) :
  nth_error (requestsFor jobs rsn) i = Some body ->
  exists id, In id (body_jobIds body).
Proof.
  intros Hi. apply nth_error_In in Hi.
  assert (Hin : In (body_jobIds body)
                   (map body_jobIds (requestsFor jobs rsn)))
    by now apply in_map.
  rewrite requestsOf_jobIds in Hin.
  pose proof (proj1 (Forall_forall _ _)
                (allBatches_nonempty jobs maxJobsPerRequest) _ Hin) as Hne.
  destruct (body_jobIds body) as [|id ids]; [contradiction|].
  exists id. now left.
Qed.

(** X17: when the mutation runs with fake-data mode disabled and no call
    throws, [handlePreemptJobs] completes normally, opens one snackbar,
    leaves [isPreempting] false, sets [hasAttemptedPreempt] and asks for
    the refetch.  The snackbar is the success one when every request
    succeeds, the error one when there are jobs and every request fails,
    and the warning one when a request succeeds and another fails. *)
Theorem handlePreemptJobs_snackbar (jobs : list Job) (s : State) :
  noCallThrows submitApi (requestsFor jobs (reason s)) ->
  exists s' bar,
    handlePreemptJobs mutate jobs s = (Normal tt, s') /\
    snackbars s' = snackbars s ++ [bar] /\
    isPreempting s' = false /\
    hasAttemptedPreempt s' = true /\
    refetchAfterPreempt s' = true /\
    ((forall i body,
         nth_error (requestsFor jobs (reason s)) i = Some body ->
         requestSucceeds submitApi i body) ->
     bar = (successMessage, success)) /\
    (jobs <> [] ->
     (forall i body,
         nth_error (requestsFor jobs (reason s)) i = Some body ->
         exists e, requestFails submitApi i body e) ->
     bar = (allFailedMessage, error)) /\
    ((exists i body,
         nth_error (requestsFor jobs (reason s)) i = Some body /\
         requestSucceeds submitApi i body) ->
     (exists i body e,
         nth_error (requestsFor jobs (reason s)) i = Some body /\
         requestFails submitApi i body e) ->
     bar = (someFailedMessage, warning)).
Proof.
  intros Hno.
  unfold handlePreemptJobs, preemptJobs. rewrite (@mutate_normal jobs (reason s) Hno).
  set (succ := flat_map (@successesOf Err) (promises jobs (reason s))).
  set (failed := flat_map (failuresOf getErrorMessage)
                          (promises jobs (reason s))).
  eexists. eexists. split; [reflexivity|]. cbn [snackbars isPreempting
    hasAttemptedPreempt refetchAfterPreempt setRefetchAfterPreempt
    setIsPreempting setHasAttemptedPreempt setJobIdsToPreemptResponses
    openSnackbar].
  split; [rewrite <- surjective_pairing; reflexivity|].
  repeat (split; [reflexivity|]).
  unfold snackbarFor. cbn [successfulJobIds failedJobIds].
  split; [|split].
  - intros Hok.
    assert (Hall : Forall (fun a => promise a = Fulfilled)
                          (promises jobs (reason s))).
    { apply Forall_forall. intros a Ha.
      apply In_promisesFrom in Ha as (i & body & Hi & ->). simpl.
      unfold requestSucceeds in Hok. now rewrite (Hok i body Hi). }
    destruct (all_fulfilled getErrorMessage Hall) as [_ Ef].
    subst failed. now rewrite Ef.
  - intros Hjobs Hfail.
    assert (Hs : succ = []).
    { apply flat_map_all_nil. intros a Ha.
      apply In_promisesFrom in Ha as (i & body & Hi & ->).
      destruct (Hfail i body Hi) as [e He]. unfold requestFails in He.
      unfold successesOf. simpl. now rewrite He. }
    pose proof (@reported_input _ getErrorMessage submitApi jobs (reason s))
      as Hperm.
    fold succ failed in Hperm. rewrite Hs in Hperm. simpl in Hperm.
    apply Permutation_length in Hperm. rewrite !length_map in Hperm.
    rewrite Hs. simpl.
    destruct failed; [|reflexivity].
    destruct jobs; [contradiction|discriminate].
  - intros (i & body & Hi & Hok) (i' & body' & e & Hi' & Hfail).
    destruct (@request_has_job jobs (reason s) i body Hi) as [id Hid].
    destruct (@request_has_job jobs (reason s) i' body' Hi') as [id' Hid'].
    pose proof (@success_entry _ _ _ _ Hi Hok Hid) as Hs. fold succ in Hs.
    pose proof (@failure_entry _ _ _ _ _ Hi' Hfail Hid') as Hf. fold failed in Hf.
    destruct failed; [contradiction|]. destruct succ; [contradiction|].
    reflexivity.
Qed.

(** X18: when the mutation runs with fake-data mode disabled, no call
    throws and the job IDs are pairwise distinct, then after
    [handlePreemptJobs] every job of a request that succeeded, whose ID
    is not [__proto__], has the status [Success], and every such job of a
    request that failed has the message of that failure. *)
Theorem handlePreemptJobs_statuses (jobs : list Job) (s : State)
  (i : nat) (body : PreemptJobsBody) (id : JobId) :
  noCallThrows submitApi (requestsFor jobs (reason s)) ->
  NoDup (map jobId jobs) ->
  nth_error (requestsFor jobs (reason s)) i = Some body ->
  In id (body_jobIds body) ->
  id <> "__proto__" ->
  let statuses :=
    jobIdsToPreemptResponses (snd (handlePreemptJobs mutate jobs s)) in
  (requestSucceeds submitApi i body ->
   JsMap.get statuses id = Some "Success") /\
  (forall e, requestFails submitApi i body e ->
             JsMap.get statuses id = Some (getErrorMessage e)).
Proof.
  intros Hno Hnd Hi Hid Hproto statuses. subst statuses.
  unfold handlePreemptJobs, preemptJobs. rewrite (@mutate_normal jobs (reason s) Hno).
  cbn [snd jobIdsToPreemptResponses setRefetchAfterPreempt setIsPreempting
       setHasAttemptedPreempt setJobIdsToPreemptResponses openSnackbar].
  rewrite recordResponses_get, (proj2 (String.eqb_neq _ _) Hproto).
  cbn [successfulJobIds failedJobIds].
  set (succ := flat_map (@successesOf Err) (promises jobs (reason s))).
  set (failed := flat_map (failuresOf getErrorMessage)
                          (promises jobs (reason s))).
  pose proof (@reported_input _ getErrorMessage submitApi jobs (reason s))
    as Hperm.
  fold succ failed in Hperm.
  apply (Permutation_NoDup (Permutation_sym Hperm)) in Hnd.
  split.
  - intros Hok.
    pose proof (@success_entry _ _ _ _ Hi Hok Hid) as Hs. fold succ in Hs.
    unfold lastFailure.
    destruct (find _ (rev failed)) as [f|] eqn:Ef.
    + exfalso. apply find_some in Ef as [Hf E].
      apply String.eqb_eq in E. apply in_rev in Hf.
      apply (NoDup_app_disjoint _ _ id Hnd Hs).
      rewrite <- E. now apply in_map.
    + now rewrite (proj2 (existsb_eqb_In succ id) Hs).
  - intros e Hfail.
    pose proof (@failure_entry _ _ _ _ _ Hi Hfail Hid) as Hf. fold failed in Hf.
    unfold lastFailure.
    destruct (find _ (rev failed)) as [f|] eqn:Ef.
    + apply find_some in Ef as [Hin E].
      apply String.eqb_eq in E. apply in_rev in Hin.
      apply NoDup_app_remove_l in Hnd.
      rewrite (NoDup_map_eq failed_jobId failed f
                 (mkFailed id (getErrorMessage e)) Hnd Hin Hf E).
      reflexivity.
    + exfalso. apply in_rev in Hf.
      apply (find_none _ _ Ef) in Hf.
      simpl in Hf. now rewrite String.eqb_refl in Hf.
Qed.

(** X19: when the mutation runs with fake-data mode disabled and a call
    throws, [handlePreemptJobs] throws the message of that error and
    changes nothing but [isPreempting], which it leaves false: no
    snackbar is opened, no status is recorded, [hasAttemptedPreempt] is
    not set and no refetch is asked for. *)
Theorem handlePreemptJobs_throw (jobs : list Job) (s : State)
  (pre post : list PreemptJobsBody) (b : PreemptJobsBody) (e : Err) :
  requestsFor jobs (reason s) = pre ++ b :: post ->
  noCallThrows submitApi pre ->
  submitApi (length pre) b = Throws e ->
  handlePreemptJobs mutate jobs s =
  (Throw (getErrorMessage e), setIsPreempting false s).
Proof.
  intros E Hpre Hb.
  unfold handlePreemptJobs, preemptJobs, mutateAsyncOf, mutationFn, tryCatch.
  cbn [fakeDataEnabled].
  rewrite (@tryBlock_throws _ getErrorMessage submitApi jobs (reason s)
             _ _ _ _ E Hpre Hb).
  reflexivity.
Qed.

End Composition.

Section Rendering.

Variable terminated : Job -> bool.
Variable mutateAsync :
  list Job -> string -> Completion string UpdateJobsResponse.


(** X21: after [handlePreemptJobs] has completed normally the button to
    preempt is disabled, and the effect refetches once.  Changing the
    reason, or refetching, which also forgets the statuses, enables the
    button again exactly when the jobs are loaded and one of them can be
    preempted. *)
Theorem preempt_button_cycle (selectedJobs jobs : list Job) (s s' : State)
  (isLoadingJobs : bool) (value : string) :
  handlePreemptJobs mutateAsync jobs s = (Normal tt, s') ->
  preemptDisabled terminated isLoadingJobs selectedJobs s' = true /\
  refetches (refetchEffect s') = S (refetches s) /\
  refetchEffect (refetchEffect s') = refetchEffect s' /\
  preemptDisabled terminated isLoadingJobs selectedJobs
                  (handleReasonChange value s') =
    isLoadingJobs || negb (showsTable terminated selectedJobs) /\
  preemptDisabled terminated isLoadingJobs selectedJobs (handleRefetch s') =
    isLoadingJobs || negb (showsTable terminated selectedJobs) /\
  showStatus (handleRefetch s') = false.
Proof.
  unfold handlePreemptJobs, preemptJobs.
  destruct (mutateAsync jobs (reason s)) as [response|e]; [|discriminate].
  intros H. injection H as <-.
  unfold preemptDisabled, showsTable, refetchEffect, handleReasonChange,
    handleRefetch, showStatus. cbn.
  rewrite orb_true_r. cbn.
  rewrite !orb_false_r.
  repeat split; try reflexivity;
    now destruct (length (preemptableJobs terminated selectedJobs)).
Qed.

End Rendering.

(** ** Runs of the dialog *)

(** A job ID [__proto__] gets no status; the other job IDs do. *)
Example recordResponses_proto :
  recordResponses JsMap.empty
    (mkResponse ["__proto__"; "a"] [mkFailed "__proto__" "no"; mkFailed "b" "no"])
  = [("a", "Success"); ("b", "no")].
Proof. reflexivity. Qed.

(** The two requests for [q1] fail and the request for [q2] succeeds. *)
Lemma handlePreemptJobs_snackbar_witness :
  exists s',
    handlePreemptJobs
      (mutateAsyncOf exampleMessage (mkConfig false) (rejectQueue "q1" "boom"))
      exampleJobs initialState = (Normal tt, s') /\
    snackbars s' = [(someFailedMessage, warning)].
Proof.
  destruct (@handlePreemptJobs_snackbar string exampleMessage
              (rejectQueue "q1" "boom") exampleJobs initialState
              (rejectQueue_noCallThrows _ _ _))
    as (s' & bar & E & Hbar & _ & _ & _ & _ & _ & Hwarn).
  exists s'. split; [exact E|]. rewrite Hbar, Hwarn; [reflexivity| |].
  - exists 2, (mkBody ["b"] "q2" "s1" ""). split; reflexivity.
  - exists 0, (mkBody ["a"; "d"; "e"] "q1" "s1" ""), "boom".
    split; reflexivity.
Defined.

Lemma handlePreemptJobs_statuses_witness :
  let statuses :=
    jobIdsToPreemptResponses
      (snd (handlePreemptJobs
              (mutateAsyncOf exampleMessage (mkConfig false)
                             (rejectQueue "q1" "boom"))
              exampleJobs initialState)) in
  JsMap.get statuses "b" = Some "Success" /\
  JsMap.get statuses "d" = Some "Error: boom".
Proof.
  intros statuses. split.
  - apply (@handlePreemptJobs_statuses string exampleMessage
             (rejectQueue "q1" "boom") exampleJobs initialState
             2 (mkBody ["b"] "q2" "s1" "") "b"
             (rejectQueue_noCallThrows _ _ _));
      [unfold exampleJobs; simpl; distinct_ids|reflexivity|simpl; auto
      |discriminate|reflexivity].
  - apply (@handlePreemptJobs_statuses string exampleMessage
             (rejectQueue "q1" "boom") exampleJobs initialState
             0 (mkBody ["a"; "d"; "e"] "q1" "s1" "") "d"
             (rejectQueue_noCallThrows _ _ _));
      [unfold exampleJobs; simpl; distinct_ids|reflexivity|simpl; auto
      |discriminate|reflexivity].
Defined.

Lemma handlePreemptJobs_throw_witness :
  handlePreemptJobs
    (mutateAsyncOf exampleMessage (mkConfig false) (throwAtCall 0 "bang"))
    exampleJobs initialState =
  (Throw "Error: bang", initialState).
Proof.
  apply (@handlePreemptJobs_throw string exampleMessage
           (throwAtCall 0 "bang") exampleJobs initialState []
           [mkBody ["c"] "q1" "s2" ""; mkBody ["b"] "q2" "s1" ""]
           (mkBody ["a"; "d"; "e"] "q1" "s1" "") "bang" eq_refl).
  - intros i body H. now destruct i.
  - reflexivity.
Defined.


Lemma preempt_button_cycle_witness :
  let terminated := fun job => String.eqb (jobId job) "b" in
  let mutateAsync :=
    mutateAsyncOf exampleMessage (mkConfig false) allSucceed in
  let s' :=
    snd (handlePreemptJobs mutateAsync (preemptableJobs terminated exampleJobs)
                           initialState) in
  preemptDisabled terminated false exampleJobs s' = true /\
  preemptDisabled terminated false exampleJobs (handleReasonChange "late" s')
    = false.
Proof.
  intros terminated mutateAsync s'.
  destruct (@preempt_button_cycle terminated mutateAsync exampleJobs
              (preemptableJobs terminated exampleJobs) initialState s'
              false "late" eq_refl)
    as (Hdis & _ & _ & Hreason & _).
  split; [exact Hdis|]. rewrite Hreason. reflexivity.
Defined.

End PreemptionDialogFacts.
